(** * simple-cache: a shallow embedding of [LinkedList.ts] and [Cache.ts]

    The TypeScript sources mutate heap objects that are compared by
    identity (the [WeakMap] of the recency list is keyed by the entry
    object, the completion callbacks compare promise objects with [===]).
    Objects are therefore modelled as identities (natural numbers) into
    explicit stores, and every method is a function from store to store. *)

From stdpp Require Import gmap strings list fin_maps.
From Stdlib Require Import ZArith Lia.

Local Open Scope Z_scope.

(** Identity of a JavaScript object (an address in a store). *)
Abbreviation Ref := nat.

(** ** [src/src/LinkedList.ts] *)

Module LinkedList.

(** [interface LinkedListItem]; the [parent] field is always the list
    that allocated the node and is never read, so it is left out. *)
Record LinkedListItem := mkItem {
  item : Ref;
  closer : option Ref;
  further : option Ref
}.

(** [class LinkedList]: the four private fields, together with the store
    of the [LinkedListItem] objects this list has allocated.  Nodes that
    are unlinked stay in the store: other nodes may still point at them. *)
Record t := mk {
  nodes : gmap nat LinkedListItem;
  fresh : Ref;
  _lookup : gmap nat Ref;
  _length : Z;
  _head : option Ref;
  _tail : option Ref
}.

Definition empty : t :=
  {| nodes := ∅; fresh := 0%nat; _lookup := ∅; _length := 0;
     _head := None; _tail := None |}.

Definition set_nodes (f : gmap nat LinkedListItem → gmap nat LinkedListItem) (l : t) : t :=
  {| nodes := f (nodes l); fresh := fresh l; _lookup := _lookup l;
     _length := _length l; _head := _head l; _tail := _tail l |}.

Definition set_lookup (f : gmap nat Ref → gmap nat Ref) (l : t) : t :=
  {| nodes := nodes l; fresh := fresh l; _lookup := f (_lookup l);
     _length := _length l; _head := _head l; _tail := _tail l |}.

Definition set_length (n : Z) (l : t) : t :=
  {| nodes := nodes l; fresh := fresh l; _lookup := _lookup l;
     _length := n; _head := _head l; _tail := _tail l |}.

Definition set_head (h : option Ref) (l : t) : t :=
  {| nodes := nodes l; fresh := fresh l; _lookup := _lookup l;
     _length := _length l; _head := h; _tail := _tail l |}.

Definition set_tail (tl : option Ref) (l : t) : t :=
  {| nodes := nodes l; fresh := fresh l; _lookup := _lookup l;
     _length := _length l; _head := _head l; _tail := tl |}.

(** [n.closer = c] and [n.further = f] on the node object [n]. *)
Definition assign_closer (n : Ref) (c : option Ref) : t → t :=
  set_nodes (alter (fun it => mkItem (item it) c (further it)) n).

Definition assign_further (n : Ref) (f : option Ref) : t → t :=
  set_nodes (alter (fun it => mkItem (item it) (closer it) f) n).

(** [private _remove(linkedListItem)] *)
Definition _remove (n : Ref) (l : t) : t :=
  match nodes l !! n with
  | None => l
  | Some it =>
    let c := closer it in
    let f := further it in
    let l1 := match c with
              | Some cn => assign_further cn f l
              | None => set_head f l
              end in
    let l2 := match f with
              | Some fn => assign_closer fn c l1
              | None => set_tail c l1
              end in
    let l3 := assign_further n None (assign_closer n None l2) in
    set_length (_length l3 - 1) l3
  end.

(** [insertAtHead(item)] *)
Definition insertAtHead (x : Ref) (l : t) : t :=
  let '(n, l1) :=
    match _lookup l !! x with
    | Some n => (n, _remove n l)
    | None =>
      let n := fresh l in
      (n, {| nodes := <[n := mkItem x None (_head l)]> (nodes l);
             fresh := S n;
             _lookup := <[x := n]> (_lookup l);
             _length := _length l; _head := _head l; _tail := _tail l |})
    end in
  let l2 := match _head l1 with
            | Some h => assign_closer h (Some n) l1
            | None => set_tail (Some n) l1
            end in
  set_length (_length l2 + 1) (set_head (Some n) l2).

(** [remove(item)] *)
Definition remove (x : Ref) (l : t) : t :=
  match _lookup l !! x with
  | None => l
  | Some n => set_lookup (delete x) (_remove n l)
  end.

(** [get length()] *)
Definition length (l : t) : Z := _length l.

(** [get tail()]: [this._tail && this._tail.item] *)
Definition tail (l : t) : option Ref :=
  match _tail l with
  | Some n => item <$> nodes l !! n
  | None => None
  end.

(** Reading the chain as a client would: follow [further] from the head
    (resp. [closer] from the tail), at most [k] nodes. *)
Fixpoint walk (next : LinkedListItem → option Ref) (k : nat)
    (cur : option Ref) (l : t) : list Ref :=
  match k, cur with
  | S k', Some n =>
    match nodes l !! n with
    | Some it => item it :: walk next k' (next it) l
    | None => []
    end
  | _, _ => []
  end.

Definition from_head (l : t) : list Ref :=
  walk further (S (Z.to_nat (_length l))) (_head l) l.

Definition from_tail (l : t) : list Ref :=
  walk closer (S (Z.to_nat (_length l))) (_tail l) l.

(** The items the list considers linked: the keys of [_lookup]. *)
Definition linked (x : Ref) (l : t) : Prop := is_Some (_lookup l !! x).

(** A list that links nothing. *)
Definition is_empty (l : t) : Prop :=
  _lookup l = ∅ ∧ _length l = 0 ∧ _head l = None ∧ _tail l = None.

(** What the class is meant to maintain.  [nl] lists the linked nodes from
    head to tail, each with its item.  [seg ns prev nl next] says that the
    nodes of [nl] are chained in this order in the store [ns], the first
    one coming after [prev] and the last one before [next]. *)
Definition first_node (nl : list (Ref * Ref)) (next : option Ref) : option Ref :=
  match nl with
  | [] => next
  | (n, _) :: _ => Some n
  end.

Definition last_node (prev : option Ref) (nl : list (Ref * Ref)) : option Ref :=
  match last nl with
  | Some (n, _) => Some n
  | None => prev
  end.

Fixpoint seg (ns : gmap nat LinkedListItem) (prev : option Ref)
    (nl : list (Ref * Ref)) (next : option Ref) : Prop :=
  match nl with
  | [] => True
  | (n, x) :: rest =>
    ns !! n = Some (mkItem x prev (first_node rest next)) ∧
    seg ns (Some n) rest next
  end.

Definition well_linked (l : t) (nl : list (Ref * Ref)) : Prop :=
  seg (nodes l) None nl None ∧
  _head l = first_node nl None ∧
  _tail l = last_node None nl ∧
  _length l = Z.of_nat (List.length nl) ∧
  NoDup nl.*1 ∧
  (∀ n, n ∈ nl.*1 → (n < fresh l)%nat) ∧
  (∀ x n, _lookup l !! x = Some n ↔ (n, x) ∈ nl).

End LinkedList.


(** ** Values shared by the two versions of [withCache] *)

(** [type ParamState = string | number | boolean | null].  Numbers are
    represented by integers, plus [NaN], the one value of the type that is
    not strictly equal to itself. *)
Inductive ParamState :=
  | StateString (s : string)
  | StateNumber (n : Z)
  | StateNaN
  | StateBoolean (b : bool)
  | StateNull.

(** [function compareCallState(a, b) { return a === b; }] *)
Definition compareCallState (a b : ParamState) : bool :=
  match a, b with
  | StateString x, StateString y => bool_decide (x = y)
  | StateNumber x, StateNumber y => bool_decide (x = y)
  | StateBoolean x, StateBoolean y => bool_decide (x = y)
  | StateNull, StateNull => true
  | _, _ => false
  end.

(** The message of the [Error] thrown on reentrant recursion. *)
Definition recursion_message : string :=
  "Recursion on exactly the same cached computation detected.".

(** What a JavaScript [throw] carries out of a call: the [Error] built by
    the reentrancy check, or whatever the wrapped function raised. *)
Inductive Exn (Err : Type) :=
  | RecursionError (message : string)
  | FnError (error : Err).
Arguments RecursionError {Err} _.
Arguments FnError {Err} _.

(** What [fn(param)] does when it is invoked: it returns a promise, or
    raises before it has one. *)
Inductive FnResult (Err : Type) :=
  | FnPromise
  | FnThrow (error : Err).
Arguments FnPromise {Err}.
Arguments FnThrow {Err} _.

(** How the promise returned by [fn] settles. *)
Inductive Settlement (Return Err : Type) :=
  | Resolves (result : Return)
  | Rejects (error : Err).
Arguments Resolves {Return Err} _.
Arguments Rejects {Return Err} _.

(** How the promise handed to the callers settles; [Fulfilled None] is a
    promise fulfilled with [undefined]. *)
Inductive Outcome (Return Err : Type) :=
  | Fulfilled (value : option Return)
  | Rejected (error : Err).
Arguments Fulfilled {Return Err} _.
Arguments Rejected {Return Err} _.

(** The value of a call of the cached function. *)
Inductive CallResult (Err : Type) :=
  | Returned (cache : option Ref)
  | Threw (ex : Exn Err).
Arguments Returned {Err} _.
Arguments Threw {Err} _.

(** Where a call is when control is inside [fn(param)]: [invoke] was
    reached from the branch of an existing entry or of a new one. *)
Inductive Frame :=
  | InExisting (e : Ref)
  | InCreated (e : Ref).

(** ** [src/src/Cache.ts] *)

Module Cache.

(** [interface EntryState].  [cache] is a promise object, [null as any]
    until the first invocation has returned one. *)
Module EntryState.
Record t := mk {
  paramHash : string;
  paramState : ParamState;
  cache : option Ref;
  isBeingUsed : bool;
  isResolved : bool
}.
End EntryState.

(** [interface CacheSettings<Param, Result>] *)
Record CacheSettings (Param Return : Type) := {
  paramHasher : Param → string;
  paramState : Param → ParamState;
  maxEntries : Z;
  shouldCache : option (Return → Param → bool)
}.
Arguments paramHasher {Param Return} _ _.
Arguments paramState {Param Return} _ _.
Arguments maxEntries {Param Return} _.
Arguments shouldCache {Param Return} _.

(** The closure state of one [withCache(fn, cacheSettings)]:
    - [objs]: the store of [EntryState] objects;
    - [entriesByHash], [entriesByAccess]: the two [const]s of the closure;
    - [callbacks]: for every promise built by [invoke] whose [fn] promise
      has not settled yet, the [entryState] and [param] its [then] and
      [catch] callbacks have captured;
    - [invoked]: the arguments [fn] has been called with, latest first. *)
Record State (Param : Type) := mkState {
  objs : gmap nat EntryState.t;
  nextObj : Ref;
  entriesByHash : gmap string Ref;
  entriesByAccess : LinkedList.t;
  callbacks : gmap nat (Ref * Param);
  nextPromise : Ref;
  invoked : list Param
}.
Arguments mkState {Param} _ _ _ _ _ _ _.
Arguments objs {Param} _.
Arguments nextObj {Param} _.
Arguments entriesByHash {Param} _.
Arguments entriesByAccess {Param} _.
Arguments callbacks {Param} _.
Arguments nextPromise {Param} _.
Arguments invoked {Param} _.

Section WithCache.
Context {Param Return Err : Type}.
Variable cacheSettings : CacheSettings Param Return.

Definition init : State Param :=
  mkState ∅ 0%nat ∅ LinkedList.empty ∅ 0%nat [].

Definition set_objs (f : gmap nat EntryState.t → gmap nat EntryState.t)
    (s : State Param) : State Param :=
  mkState (f (objs s)) (nextObj s) (entriesByHash s) (entriesByAccess s)
          (callbacks s) (nextPromise s) (invoked s).

Definition set_byHash (f : gmap string Ref → gmap string Ref)
    (s : State Param) : State Param :=
  mkState (objs s) (nextObj s) (f (entriesByHash s)) (entriesByAccess s)
          (callbacks s) (nextPromise s) (invoked s).

Definition set_byAccess (f : LinkedList.t → LinkedList.t)
    (s : State Param) : State Param :=
  mkState (objs s) (nextObj s) (entriesByHash s) (f (entriesByAccess s))
          (callbacks s) (nextPromise s) (invoked s).

(** Field assignments on the entry object [e]. *)
Definition assign_paramState (e : Ref) (v : ParamState) : State Param → State Param :=
  set_objs (alter (fun r => EntryState.mk (EntryState.paramHash r) v
    (EntryState.cache r) (EntryState.isBeingUsed r) (EntryState.isResolved r)) e).

Definition assign_cache (e : Ref) (v : option Ref) : State Param → State Param :=
  set_objs (alter (fun r => EntryState.mk (EntryState.paramHash r)
    (EntryState.paramState r) v (EntryState.isBeingUsed r) (EntryState.isResolved r)) e).

Definition assign_isBeingUsed (e : Ref) (v : bool) : State Param → State Param :=
  set_objs (alter (fun r => EntryState.mk (EntryState.paramHash r)
    (EntryState.paramState r) (EntryState.cache r) v (EntryState.isResolved r)) e).

Definition assign_isResolved (e : Ref) (v : bool) : State Param → State Param :=
  set_objs (alter (fun r => EntryState.mk (EntryState.paramHash r)
    (EntryState.paramState r) (EntryState.cache r) (EntryState.isBeingUsed r) v) e).

(** [entryState.cache] read from the store. *)
Definition cache_of (e : Ref) (s : State Param) : option Ref :=
  r ← objs s !! e; EntryState.cache r.

(** [function detach(entryState)] *)
Definition detach (e : Ref) (s : State Param) : State Param :=
  let s1 := set_byAccess (LinkedList.remove e) s in
  match objs s1 !! e with
  | Some r => set_byHash (delete (EntryState.paramHash r)) s1
  | None => s1
  end.

(** [function invoke(entryState, param, paramHash)], in two halves: up
    to the moment [fn(param)] is entered, and from the moment it has
    returned its promise or raised.  The promise stored in the entry is
    the one built by [.then(...).catch(...)], a new object. *)
Definition invoke_enter (e : Ref) (param : Param) (s : State Param) : State Param :=
  let s1 := assign_isResolved e false (assign_isBeingUsed e true s) in
  mkState (objs s1) (nextObj s1) (entriesByHash s1) (entriesByAccess s1)
          (callbacks s1) (nextPromise s1) (param :: invoked s1).

Definition invoke_leave (e : Ref) (param : Param) (r : FnResult Err)
    (s : State Param) : option Err * State Param :=
  match r with
  | FnPromise =>
    let promise := nextPromise s in
    let s1 := assign_cache e (Some promise) s in
    let s2 := mkState (objs s1) (nextObj s1) (entriesByHash s1)
                (entriesByAccess s1) (<[promise := (e, param)]> (callbacks s1))
                (S promise) (invoked s1) in
    (None, assign_isBeingUsed e false s2)
  | FnThrow error => (Some error, detach e s)
  end.

Definition invoke (e : Ref) (param : Param) (r : FnResult Err)
    (s : State Param) : option Err * State Param :=
  invoke_leave e param r (invoke_enter e param s).

(** The state a settlement starts from: the callbacks of [promise] are
    no longer waiting. *)
Definition taken (promise : Ref) (s : State Param) : State Param :=
  mkState (objs s) (nextObj s) (entriesByHash s) (entriesByAccess s)
          (delete promise (callbacks s)) (nextPromise s) (invoked s).

(** The [then] and [catch] callbacks of [invoke], run when the promise
    of [fn] settles.  [None]: [promise] has no callback waiting. *)
Definition settle (promise : Ref) (o : Settlement Return Err)
    (s : State Param) : option (Outcome Return Err * State Param) :=
  match callbacks s !! promise with
  | None => None
  | Some (e, param) =>
    let s0 := taken promise s in
    let current := bool_decide (cache_of e s0 = Some promise) in
    match o with
    | Resolves result =>
      if current then
        let s1 := assign_isResolved e true s0 in
        let s2 := match shouldCache cacheSettings with
                  | Some f => if negb (f result param) then detach e s1 else s1
                  | None => s1
                  end in
        Some (Fulfilled (Some result), s2)
      else Some (Fulfilled None, s0)
    | Rejects error =>
      Some (Rejected error, if current then detach e s0 else s0)
    end
  end.

(** The cached function, in two halves around [fn(param)]. *)
Definition call_enter (param : Param) (s : State Param)
    : (CallResult Err * State Param) + (Frame * State Param) :=
  let paramHash := paramHasher cacheSettings param in
  let callState := paramState cacheSettings param in
  match entriesByHash s !! paramHash with
  | Some e =>
    if default false (EntryState.isBeingUsed <$> objs s !! e) then
      inl (Threw (RecursionError recursion_message), s)
    else
      let isCacheUseable :=
        default false
          ((fun r => compareCallState callState (EntryState.paramState r)
                     && EntryState.isResolved r) <$> objs s !! e) in
      if negb isCacheUseable then
        inr (InExisting e, invoke_enter e param (assign_paramState e callState s))
      else
        let s1 := set_byAccess (LinkedList.insertAtHead e) s in
        inl (Returned (cache_of e s1), s1)
  | None =>
    let e := nextObj s in
    let s1 := mkState
      (<[e := EntryState.mk paramHash callState None true false]> (objs s))
      (S e) (entriesByHash s) (entriesByAccess s)
      (callbacks s) (nextPromise s) (invoked s) in
    let s2 := set_byAccess (LinkedList.insertAtHead e) s1 in
    let s3 := set_byHash <[paramHash := e]> s2 in
    inr (InCreated e, invoke_enter e param s3)
  end.

Definition call_leave (k : Frame) (param : Param) (r : FnResult Err)
    (s : State Param) : CallResult Err * State Param :=
  match k with
  | InExisting e =>
    match invoke_leave e param r s with
    | (Some error, s1) => (Threw (FnError error), s1)
    | (None, s1) =>
      let s2 := set_byAccess (LinkedList.insertAtHead e) s1 in
      (Returned (cache_of e s2), s2)
    end
  | InCreated e =>
    match invoke_leave e param r s with
    | (Some error, s1) => (Threw (FnError error), s1)
    | (None, s1) =>
      let s2 :=
        if bool_decide (LinkedList.length (entriesByAccess s1)
                        > maxEntries cacheSettings) then
          match LinkedList.tail (entriesByAccess s1) with
          | Some tl =>
            let s' := set_byAccess (LinkedList.remove tl) s1 in
            match objs s' !! tl with
            | Some r => set_byHash (delete (EntryState.paramHash r)) s'
            | None => s'
            end
          | None => s1
          end
        else s1 in
      (Returned (cache_of e s2), s2)
    end
  end.

(** A call during which [fn] does not call the cached function back. *)
Definition call (param : Param) (r : FnResult Err) (s : State Param)
    : CallResult Err * State Param :=
  match call_enter param s with
  | inl done => done
  | inr (k, s1) => call_leave k param r s1
  end.

(** What happens to a cache between two moments of rest: a call of the
    cached function (with what [fn] does if it is invoked), or the
    settlement of a promise [fn] had returned. *)
Inductive Event :=
  | Call (param : Param) (r : FnResult Err)
  | Settle (promise : Ref) (o : Settlement Return Err).

Definition step (s : State Param) (ev : Event) : State Param :=
  match ev with
  | Call param r => (call param r s).2
  | Settle promise o =>
    match settle promise o s with
    | Some (_, s1) => s1
    | None => s
    end
  end.

Definition run (evs : list Event) (s : State Param) : State Param :=
  foldl step s evs.

(** The number of entries the table tracks. *)
Definition tracked (s : State Param) : nat := size (entriesByHash s).

(** Promise objects are compared by identity, so the model must never hand
    out an identity twice: every promise an entry or a callback refers to
    was allocated before [nextPromise]. *)
Definition cache_below (n : Ref) (m : gmap nat EntryState.t) : Prop :=
  ∀ e ent h, m !! e = Some ent → EntryState.cache ent = Some h → (h < n)%nat.

Definition allocated (s : State Param) : Prop :=
  cache_below (nextPromise s) (objs s) ∧
  (∀ h, is_Some (callbacks s !! h) → (h < nextPromise s)%nat).

(** What holds of the table whenever no call is in progress: every entry
    it holds is an object of the store, filed under its own fingerprint,
    not in use, and holding a promise. *)
Definition at_rest (s : State Param) : Prop :=
  ∀ h e, entriesByHash s !! h = Some e →
    (e < nextObj s)%nat ∧
    ∃ ent, objs s !! e = Some ent ∧
           EntryState.paramHash ent = h ∧
           EntryState.isBeingUsed ent = false ∧
           is_Some (EntryState.cache ent).

(** Table and list in agreement, within the bound: the list is well linked
    in the order [nl], the table holds exactly the entries linked, each
    under its own fingerprint, and the list is no longer than
    [maxEntries]. *)
Definition consistent (s : State Param) (nl : list (Ref * Ref)) : Prop :=
  LinkedList.well_linked (entriesByAccess s) nl ∧
  (∀ h e, entriesByHash s !! h = Some e ↔
          e ∈ nl.*2 ∧ EntryState.paramHash <$> objs s !! e = Some h) ∧
  (∀ e, e ∈ nl.*2 → (e < nextObj s)%nat ∧ is_Some (objs s !! e)) ∧
  LinkedList.length (entriesByAccess s) ≤ maxEntries cacheSettings.

End WithCache.

End Cache.

(** ** The version of [withCache] without the resolution flag
    (the second [Cache.ts] of the repository) *)

Module SimpleCache.

Module EntryState.
Record t := mk {
  paramHash : string;
  paramState : ParamState;
  cache : option Ref;
  isBeingUsed : bool
}.
End EntryState.

(** [interface CacheSettings<Param>] *)
Record CacheSettings (Param : Type) := {
  paramHasher : Param → string;
  paramState : Param → ParamState;
  maxEntries : Z
}.
Arguments paramHasher {Param} _ _.
Arguments paramState {Param} _ _.
Arguments maxEntries {Param} _.

(** The closure state; [cache] holds the very promise [fn] returned, and
    nothing is attached to it. *)
Record State (Param : Type) := mkState {
  objs : gmap nat EntryState.t;
  nextObj : Ref;
  entriesByHash : gmap string Ref;
  entriesByAccess : LinkedList.t;
  nextPromise : Ref;
  invoked : list Param
}.
Arguments mkState {Param} _ _ _ _ _ _.
Arguments objs {Param} _.
Arguments nextObj {Param} _.
Arguments entriesByHash {Param} _.
Arguments entriesByAccess {Param} _.
Arguments nextPromise {Param} _.
Arguments invoked {Param} _.

Section WithCache.
Context {Param Err : Type}.
Variable cacheSettings : CacheSettings Param.

Definition init : State Param :=
  mkState ∅ 0%nat ∅ LinkedList.empty 0%nat [].

Definition set_objs (f : gmap nat EntryState.t → gmap nat EntryState.t)
    (s : State Param) : State Param :=
  mkState (f (objs s)) (nextObj s) (entriesByHash s) (entriesByAccess s)
          (nextPromise s) (invoked s).

Definition set_byHash (f : gmap string Ref → gmap string Ref)
    (s : State Param) : State Param :=
  mkState (objs s) (nextObj s) (f (entriesByHash s)) (entriesByAccess s)
          (nextPromise s) (invoked s).

Definition set_byAccess (f : LinkedList.t → LinkedList.t)
    (s : State Param) : State Param :=
  mkState (objs s) (nextObj s) (entriesByHash s) (f (entriesByAccess s))
          (nextPromise s) (invoked s).

Definition assign_paramState (e : Ref) (v : ParamState) : State Param → State Param :=
  set_objs (alter (fun r => EntryState.mk (EntryState.paramHash r) v
    (EntryState.cache r) (EntryState.isBeingUsed r)) e).

Definition assign_cache (e : Ref) (v : option Ref) : State Param → State Param :=
  set_objs (alter (fun r => EntryState.mk (EntryState.paramHash r)
    (EntryState.paramState r) v (EntryState.isBeingUsed r)) e).

Definition assign_isBeingUsed (e : Ref) (v : bool) : State Param → State Param :=
  set_objs (alter (fun r => EntryState.mk (EntryState.paramHash r)
    (EntryState.paramState r) (EntryState.cache r) v) e).

Definition cache_of (e : Ref) (s : State Param) : option Ref :=
  r ← objs s !! e; EntryState.cache r.

(** [try { entryState.cache = fn(param); } catch (error) { ... }], from the
    moment [fn(param)] is entered. *)
Definition enter_fn (param : Param) (s : State Param) : State Param :=
  mkState (objs s) (nextObj s) (entriesByHash s) (entriesByAccess s)
          (nextPromise s) (param :: invoked s).

Definition leave_fn (e : Ref) (paramHash : string) (r : FnResult Err)
    (s : State Param) : option Err * State Param :=
  match r with
  | FnPromise =>
    let promise := nextPromise s in
    let s1 := assign_cache e (Some promise) s in
    (None, mkState (objs s1) (nextObj s1) (entriesByHash s1)
             (entriesByAccess s1) (S promise) (invoked s1))
  | FnThrow error =>
    (Some error,
     set_byHash (delete paramHash) (set_byAccess (LinkedList.remove e) s))
  end.

Definition call_enter (param : Param) (s : State Param)
    : (CallResult Err * State Param) + (Frame * State Param) :=
  let paramHash := paramHasher cacheSettings param in
  let callState := paramState cacheSettings param in
  match entriesByHash s !! paramHash with
  | Some e =>
    if default false (EntryState.isBeingUsed <$> objs s !! e) then
      inl (Threw (RecursionError recursion_message), s)
    else if negb (default false
              (compareCallState callState ∘ EntryState.paramState <$> objs s !! e)) then
      inr (InExisting e, enter_fn param (assign_isBeingUsed e true s))
    else
      let s1 := set_byAccess (LinkedList.insertAtHead e) s in
      inl (Returned (cache_of e s1), s1)
  | None =>
    let e := nextObj s in
    let s1 := mkState
      (<[e := EntryState.mk paramHash callState None true]> (objs s))
      (S e) (entriesByHash s) (entriesByAccess s) (nextPromise s) (invoked s) in
    let s2 := set_byAccess (LinkedList.insertAtHead e) s1 in
    let s3 := set_byHash <[paramHash := e]> s2 in
    inr (InCreated e, enter_fn param s3)
  end.

Definition call_leave (k : Frame) (param : Param) (r : FnResult Err)
    (s : State Param) : CallResult Err * State Param :=
  let paramHash := paramHasher cacheSettings param in
  let callState := paramState cacheSettings param in
  match k with
  | InExisting e =>
    match leave_fn e paramHash r s with
    | (Some error, s1) => (Threw (FnError error), s1)
    | (None, s1) =>
      let s2 := assign_isBeingUsed e false (assign_paramState e callState s1) in
      let s3 := set_byAccess (LinkedList.insertAtHead e) s2 in
      (Returned (cache_of e s3), s3)
    end
  | InCreated e =>
    match leave_fn e paramHash r s with
    | (Some error, s1) => (Threw (FnError error), s1)
    | (None, s1) =>
      let s2 := assign_isBeingUsed e false s1 in
      let s3 :=
        if bool_decide (LinkedList.length (entriesByAccess s2)
                        > maxEntries cacheSettings) then
          match LinkedList.tail (entriesByAccess s2) with
          | Some tl =>
            let s' := set_byAccess (LinkedList.remove tl) s2 in
            match objs s' !! tl with
            | Some r => set_byHash (delete (EntryState.paramHash r)) s'
            | None => s'
            end
          | None => s2
          end
        else s2 in
      (Returned (cache_of e s3), s3)
    end
  end.

Definition call (param : Param) (r : FnResult Err) (s : State Param)
    : CallResult Err * State Param :=
  match call_enter param s with
  | inl done => done
  | inr (k, s1) => call_leave k param r s1
  end.

Definition run (ps : list (Param * FnResult Err)) (s : State Param) : State Param :=
  foldl (fun s pr => (call pr.1 pr.2 s).2) s ps.

Definition tracked (s : State Param) : nat := size (entriesByHash s).

End WithCache.

End SimpleCache.

(** ** A concrete instance: strings hashed by themselves *)

Definition settings2 : Cache.CacheSettings string nat :=
  {| Cache.paramHasher := fun p => p;
     Cache.paramState := fun _ => StateNull;
     Cache.maxEntries := 2;
     Cache.shouldCache := None |}.

Definition simple2 : SimpleCache.CacheSettings string :=
  {| SimpleCache.paramHasher := fun p => p;
     SimpleCache.paramState := fun _ => StateNull;
     SimpleCache.maxEntries := 2 |}.

(** Every call finds [fn] returning a promise, none of which settles. *)
Definition pending_calls (ps : list string)
    : list (Cache.Event (Param:=string) (Return:=nat) (Err:=string)) :=
  (fun p => Cache.Call p FnPromise) <$> ps.

Definition simple_calls (ps : list string) : list (string * FnResult string) :=
  (fun p => (p, FnPromise)) <$> ps.

(** The same with [maxEntries: 0], and with a [shouldCache] that refuses
    every result. *)
Definition settings0 : Cache.CacheSettings string nat :=
  {| Cache.paramHasher := fun p => p;
     Cache.paramState := fun _ => StateNull;
     Cache.maxEntries := 0;
     Cache.shouldCache := None |}.

Definition refusing : Cache.CacheSettings string nat :=
  {| Cache.paramHasher := fun p => p;
     Cache.paramState := fun _ => StateNull;
     Cache.maxEntries := 2;
     Cache.shouldCache := Some (fun _ _ => false) |}.

(** Arguments that carry their state: the fingerprint is the first
    component, the state the second. *)
Definition versioned : Cache.CacheSettings (string * Z) nat :=
  {| Cache.paramHasher := fst;
     Cache.paramState := fun p => StateNumber (snd p);
     Cache.maxEntries := 2;
     Cache.shouldCache := None |}.

(** The cache while the first call, on ["A"], is inside [fn]. *)
Definition inside_first_call : Cache.State string :=
  match Cache.call_enter (Err:=string) settings2 "A" Cache.init with
  | inl (_, s) => s
  | inr (_, s) => s
  end.

Definition simple_inside_first_call : SimpleCache.State string :=
  match SimpleCache.call_enter (Err:=string) simple2 "A" SimpleCache.init with
  | inl (_, s) => s
  | inr (_, s) => s
  end.

(** The cache after one call on ["A"] whose promise is still pending. *)
Definition after_first_call : Cache.State string :=
  (Cache.call (Err:=string) settings2 "A" FnPromise Cache.init).2.

(** The entry that call has created. *)
Definition first_entry : Cache.EntryState.t :=
  Cache.EntryState.mk "A" StateNull (Some 0%nat) false false.

(** The cache after that promise has resolved with [7]. *)
Definition after_first_resolved : Cache.State string :=
  Cache.run (Err:=string) settings2
    [Cache.Call "A" FnPromise; Cache.Settle 0%nat (Resolves 7%nat)] Cache.init.


(** A cache that keeps one entry, and one whose state is never equal to
    itself. *)
Definition settings1 : Cache.CacheSettings string nat :=
  {| Cache.paramHasher := fun p => p;
     Cache.paramState := fun _ => StateNull;
     Cache.maxEntries := 1;
     Cache.shouldCache := None |}.

Definition restless : Cache.CacheSettings string nat :=
  {| Cache.paramHasher := fun p => p;
     Cache.paramState := fun _ => StateNaN;
     Cache.maxEntries := 2;
     Cache.shouldCache := None |}.

(** With [maxEntries: 1], the calls A, B, A: the first entry of A has been
    evicted and a second one created, all promises pending. *)
Definition after_recreation : Cache.State string :=
  Cache.run (Err:=string) settings1
    [Cache.Call "A" FnPromise; Cache.Call "B" FnPromise; Cache.Call "A" FnPromise]
    Cache.init.

(** The version without [isResolved], with arguments that carry their
    state, and its cache after a first call on [("A", 1)]. *)
Definition simple_versioned : SimpleCache.CacheSettings (string * Z) :=
  {| SimpleCache.paramHasher := fst;
     SimpleCache.paramState := fun p => StateNumber (snd p);
     SimpleCache.maxEntries := 2 |}.

Definition simple_after_versioned_call : SimpleCache.State (string * Z) :=
  (SimpleCache.call (Err:=string) simple_versioned ("A", 1) FnPromise
     SimpleCache.init).2.

(** A cache that keeps three entries, and the same with a [shouldCache]
    that refuses every result. *)
Definition settings3 : Cache.CacheSettings string nat :=
  {| Cache.paramHasher := fun p => p;
     Cache.paramState := fun _ => StateNull;
     Cache.maxEntries := 3;
     Cache.shouldCache := None |}.

Definition refusing3 : Cache.CacheSettings string nat :=
  {| Cache.paramHasher := fun p => p;
     Cache.paramState := fun _ => StateNull;
     Cache.maxEntries := 3;
     Cache.shouldCache := Some (fun _ _ => false) |}.

(** The calls A, B, C, A, A, C, all promises pending: entry [0] of A holds
    promise [4]. *)
Definition reaccessed : list string := ["A"; "B"; "C"; "A"; "A"; "C"].

(** The cache after the calls A, B, with [maxEntries: 2]. *)
Definition after_two_calls : Cache.State string :=
  Cache.run (Err:=string) settings2
    [Cache.Call "A" FnPromise; Cache.Call "B" FnPromise] Cache.init.


(** The same in the version without [isResolved]. *)
Definition simple_after_two_calls : SimpleCache.State string :=
  SimpleCache.run (Err:=string) simple2
    [("A", FnPromise); ("B", FnPromise)] SimpleCache.init.

Definition simple_after_two_versioned : SimpleCache.State (string * Z) :=
  SimpleCache.run (Err:=string) simple_versioned
    [(("A", 1), FnPromise); (("B", 1), FnPromise)] SimpleCache.init.

(** A list of two items, [1] inserted after [0], and its order. *)
Definition two_items : LinkedList.t :=
  LinkedList.insertAtHead 1%nat (LinkedList.insertAtHead 0%nat LinkedList.empty).

Definition two_items_order : list (Ref * Ref) := [(1%nat, 1%nat); (0%nat, 0%nat)].

(** * Facts about the recency list *)

Section LinkedListFacts.
Import LinkedList.

Lemma lookup__remove (n : Ref) (l : LinkedList.t) :
  _lookup (_remove n l) = _lookup l.
Proof.
  unfold _remove. destruct (nodes l !! n) as [[x [c|] [f|]]|]; reflexivity.
Qed.

Lemma lookup_remove_eq (x : Ref) (l : LinkedList.t) :
  _lookup (remove x l) !! x = None.
Proof.
  unfold remove. destruct (_lookup l !! x) as [n|] eqn:Hx; [|exact Hx].
  cbn. rewrite lookup__remove. apply lookup_delete_eq.
Qed.

Lemma lookup_remove_ne (x y : Ref) (l : LinkedList.t) :
  x ≠ y → _lookup (remove x l) !! y = _lookup l !! y.
Proof.
  intros Hne. unfold remove. destruct (_lookup l !! x) as [n|]; [|reflexivity].
  cbn. rewrite lookup__remove. by apply lookup_delete_ne.
Qed.

Lemma remove_not_linked (x : Ref) (l : LinkedList.t) : ¬ linked x (remove x l).
Proof. unfold linked. rewrite lookup_remove_eq. by intros [? ?]. Qed.

Lemma insertAtHead_is_empty (x : Ref) (l : LinkedList.t) :
  is_empty l →
  tail (insertAtHead x l) = Some x ∧
  length (insertAtHead x l) = 1 ∧
  is_empty (remove x (insertAtHead x l)).
Proof.
  destruct l as [ns fr lk len hd tl]. unfold is_empty. cbn.
  intros (-> & -> & -> & ->).
  unfold insertAtHead, tail, length, remove. cbn.
  rewrite lookup_empty. cbn. rewrite !lookup_insert_eq. cbn.
  split; [reflexivity|]. split; [reflexivity|].
  unfold _remove. cbn. rewrite lookup_insert_eq. cbn.
  rewrite delete_insert_eq, delete_empty. done.
Qed.

(** ** Well-linked lists *)

Lemma seg_frame (ns ns' : gmap nat LinkedListItem) (prev next : option Ref)
    (nl : list (Ref * Ref)) :
  (∀ n, n ∈ nl.*1 → ns' !! n = ns !! n) →
  seg ns prev nl next → seg ns' prev nl next.
Proof.
  revert prev. induction nl as [|[n x] rest IH]; intros prev Hsame; [done|].
  cbn. intros [Hn Hrest]. split.
  - rewrite Hsame by (cbn; left). exact Hn.
  - apply IH; [|exact Hrest]. intros m Hm. apply Hsame. cbn. by right.
Qed.

Lemma seg_app (ns : gmap nat LinkedListItem) (prev next : option Ref)
    (pre post : list (Ref * Ref)) :
  seg ns prev (pre ++ post) next ↔
  seg ns prev pre (first_node post next) ∧ seg ns (last_node prev pre) post next.
Proof.
  revert prev. induction pre as [|[n x] rest IH]; intros prev.
  - cbn. tauto.
  - cbn [app seg]. rewrite IH.
    assert (Hfirst : first_node (rest ++ post) next
                     = first_node rest (first_node post next))
      by (destruct rest as [|[m y] rest']; reflexivity).
    assert (Hlast : last_node (Some n) rest = last_node prev ((n, x) :: rest)).
    { unfold last_node. destruct rest as [|p rest']; [reflexivity|].
      cbn [last]. destruct (last (p :: rest')) as [[m y]|] eqn:Hl; [reflexivity|].
      by apply last_None in Hl. }
    rewrite Hfirst, Hlast. tauto.
Qed.

Lemma seg_set_next (ns : gmap nat LinkedListItem) (prev next next' : option Ref)
    (pre : list (Ref * Ref)) (c y : Ref) :
  NoDup (pre ++ [(c, y)]).*1 →
  seg ns prev (pre ++ [(c, y)]) next →
  seg (alter (fun it => mkItem (item it) (closer it) next') c ns)
      prev (pre ++ [(c, y)]) next'.
Proof.
  revert prev. induction pre as [|[n x] rest IH]; intros prev Hnd.
  - cbn. intros [Hc _]. split; [|done].
    rewrite lookup_alter_eq, Hc. reflexivity.
  - cbn [app seg]. intros [Hn Hrest].
    cbn in Hnd. apply NoDup_cons in Hnd as [Hnotin Hnd]. split.
    + rewrite lookup_alter_ne.
      * destruct rest as [|[m z] rest']; exact Hn.
      * intros ->. apply Hnotin. rewrite fmap_app. set_solver.
    + by apply IH.
Qed.

Lemma seg_set_prev (ns : gmap nat LinkedListItem) (prev prev' next : option Ref)
    (f y : Ref) (post : list (Ref * Ref)) :
  NoDup ((f, y) :: post).*1 →
  seg ns prev ((f, y) :: post) next →
  seg (alter (fun it => mkItem (item it) prev' (further it)) f ns)
      prev' ((f, y) :: post) next.
Proof.
  cbn. intros Hnd [Hf Hpost]. apply NoDup_cons in Hnd as [Hnotin Hnd]. split.
  - rewrite lookup_alter_eq, Hf. reflexivity.
  - apply (seg_frame ns); [|exact Hpost].
    intros m Hm. apply lookup_alter_ne. intros ->. by apply Hnotin.
Qed.

Lemma well_linked_empty : well_linked LinkedList.empty [].
Proof.
  unfold well_linked. cbn. split_and!; try done.
  - apply NoDup_nil_2.
  - intros n Hn. by apply elem_of_nil in Hn.
  - intros x n. rewrite lookup_empty. split; [discriminate|].
    intros Hn. by apply elem_of_nil in Hn.
Qed.

(** The tail getter of a well-linked list answers the item of the last
    node, and nothing when the list is empty. *)
Lemma well_linked_tail (l : LinkedList.t) (nl : list (Ref * Ref)) :
  well_linked l nl → tail l = snd <$> last nl.
Proof.
  intros (Hseg & _ & Htail & _). unfold tail. rewrite Htail. unfold last_node.
  destruct (last nl) as [[n x]|] eqn:Hlast; [|reflexivity].
  apply last_Some in Hlast as [pre ->].
  apply seg_app in Hseg as [_ [Hn _]]. rewrite Hn. reflexivity.
Qed.

(** Inserting an item that is not linked puts it in front of a well-linked
    list and leaves the list well linked. *)
Lemma insertAtHead_unlinked (x : Ref) (l : LinkedList.t) (nl : list (Ref * Ref)) :
  well_linked l nl →
  _lookup l !! x = None →
  well_linked (insertAtHead x l) ((fresh l, x) :: nl).
Proof.
  intros (Hseg & Hhead & Htail & Hlen & Hnd & Hfresh & Hlk) Hx.
  assert (Hnew : fresh l ∉ nl.*1).
  { intros Hin. specialize (Hfresh _ Hin). lia. }
  unfold insertAtHead. rewrite Hx. cbn.
  assert (Hlk' : ∀ y n, <[x := fresh l]> (_lookup l) !! y = Some n
                        ↔ (n, y) ∈ (fresh l, x) :: nl).
  { intros y n. rewrite elem_of_cons. destruct (decide (x = y)) as [<-|Hne].
    - rewrite lookup_insert_eq. split.
      + intros [= <-]. by left.
      + intros [[= ->]|Hin]; [done|]. apply Hlk in Hin. congruence.
    - rewrite lookup_insert_ne by exact Hne. rewrite Hlk. split; [by right|].
      intros [[= -> ->]|Hin]; [done|exact Hin]. }
  assert (Hnd' : NoDup ((fresh l, x) :: nl).*1) by (cbn; by apply NoDup_cons).
  assert (Hfresh' : ∀ n, n ∈ ((fresh l, x) :: nl).*1 → (n < S (fresh l))%nat).
  { cbn. intros n [->|Hin]%elem_of_cons; [lia|]. specialize (Hfresh _ Hin). lia. }
  destruct nl as [|[h y] rest].
  - cbn in Hhead. rewrite Hhead. unfold well_linked. cbn.
    split_and!; try done.
    + apply lookup_insert_eq.
    + rewrite Hlen. reflexivity.
  - cbn in Hhead. rewrite Hhead. cbn.
    assert (Hne : h ≠ fresh l) by (intros ->; apply Hnew; cbn; by left).
    unfold well_linked. cbn [nodes _head _tail _length fresh _lookup
      set_length set_head assign_closer set_nodes].
    split_and!; try done.
    + split.
      * rewrite lookup_alter_ne by exact Hne. apply lookup_insert_eq.
      * apply (seg_set_prev _ None); [exact Hnd|].
        apply (seg_frame (nodes l)); [|exact Hseg].
        intros m Hm. apply lookup_insert_ne. intros <-. by apply Hnew.
    + rewrite Hlen. cbn [List.length]. lia.
Qed.

Lemma last_node_snoc (prev : option Ref) (pre : list (Ref * Ref)) (c y : Ref) :
  last_node prev (pre ++ [(c, y)]) = Some c.
Proof. unfold last_node. by rewrite last_snoc. Qed.

Lemma last_node_app_cons (prev : option Ref) (pre post : list (Ref * Ref))
    (p : Ref * Ref) :
  last_node prev (pre ++ p :: post) = last_node (Some p.1) post.
Proof.
  unfold last_node. rewrite last_app. cbn [last].
  destruct post as [|q post']; [by destruct p|].
  rewrite last_cons_cons.
  destruct (last (q :: post')) as [[m z]|] eqn:Hl; [reflexivity|].
  by apply last_None in Hl.
Qed.

(** Unlinking a node of a well-linked list links its two neighbours to
    each other, and leaves the node without links. *)
Lemma _remove_well_linked (l : LinkedList.t) (pre post : list (Ref * Ref))
    (n x : Ref) :
  well_linked l (pre ++ (n, x) :: post) →
  seg (nodes (_remove n l)) None (pre ++ post) None ∧
  _head (_remove n l) = first_node (pre ++ post) None ∧
  _tail (_remove n l) = last_node None (pre ++ post) ∧
  _length (_remove n l) = Z.of_nat (List.length (pre ++ post)) ∧
  fresh (_remove n l) = fresh l ∧
  nodes (_remove n l) !! n = Some (mkItem x None None).
Proof.
  intros (Hseg & Hhead & Htail & Hlen & Hnd & _ & _).
  apply seg_app in Hseg as [Hpre [Hn Hpost]].
  cbn [first_node] in Hpre.
  rewrite fmap_app, fmap_cons in Hnd. cbn [fst] in Hnd.
  apply NoDup_app in Hnd as (Hndpre & Hdisj & Hndpost).
  apply NoDup_cons in Hndpost as [Hnpost Hndpost].
  assert (Hnpre : n ∉ pre.*1).
  { intros Hin. apply (Hdisj n Hin). by left. }
  assert (Hlen' : _length l - 1 = Z.of_nat (List.length (pre ++ post))).
  { rewrite Hlen, !length_app. cbn [List.length]. lia. }
  unfold _remove. rewrite Hn. cbn [closer further].
  destruct pre as [|[c y] pre0 _] using rev_ind;
    destruct post as [|[f z] post0].
  - cbn. rewrite !lookup_alter_eq, Hn. done.
  - cbn in Hn, Hpost. destruct Hpost as [Hf Hpost0].
    assert (Hfn : f ≠ n) by (intros ->; apply Hnpost; cbn; by left).
    apply NoDup_cons in Hndpost as Hf'. destruct Hf' as [Hfpost _].
    unfold assign_closer, assign_further, set_nodes, set_head, set_tail,
      set_length.
    cbn [last_node last first_node app nodes _head _tail _length fresh _lookup].
    refine (conj _ (conj _ (conj _ (conj _ (conj _ _))))).
    + split.
      * rewrite !lookup_alter_ne by congruence. rewrite lookup_alter_eq, Hf. done.
      * apply (seg_frame (nodes l)); [|exact Hpost0].
        intros m Hm. rewrite !lookup_alter_ne; [done|..].
        -- intros ->. by apply Hfpost.
        -- intros ->. apply Hnpost. cbn. by right.
        -- intros ->. apply Hnpost. cbn. by right.
    + reflexivity.
    + rewrite Htail. unfold last_node. cbn [app]. by rewrite last_cons_cons.
    + exact Hlen'.
    + reflexivity.
    + rewrite !lookup_alter_eq, lookup_alter_ne by congruence.
      rewrite Hn. done.
  - rewrite last_node_snoc in Hn |- *. cbn [first_node] in Hn |- *.
    rewrite app_nil_r in Hlen' |- *.
    assert (Hcn : c ≠ n).
    { intros ->. apply Hnpre. rewrite fmap_app. apply elem_of_app. right.
      cbn. by left. }
    pose proof (seg_set_next _ _ _ None _ _ _ Hndpre Hpre) as Hpre'.
    unfold assign_closer, assign_further, set_nodes, set_head, set_tail,
      set_length.
    simpl.
    refine (conj _ (conj _ (conj _ (conj _ (conj _ _))))).
    + apply (seg_frame (alter (fun it => mkItem (item it) (closer it) None)
                          c (nodes l))); [|exact Hpre'].
      intros m Hm.
      do 2 (rewrite lookup_alter_ne by (intros ->; by apply Hnpre)). done.
    + rewrite Hhead. by destruct pre0 as [|[? ?] ?].
    + by rewrite last_node_snoc.
    + exact Hlen'.
    + reflexivity.
    + rewrite !lookup_alter_eq, lookup_alter_ne by congruence.
      rewrite Hn. done.
  - rewrite last_node_snoc in Hn. cbn [first_node] in Hn.
    rewrite !last_node_snoc.
    assert (Hcn : c ≠ n).
    { intros ->. apply Hnpre. rewrite fmap_app. apply elem_of_app. right.
      cbn. by left. }
    assert (Hfn : f ≠ n) by (intros ->; apply Hnpost; cbn; by left).
    assert (Hcpost : c ∉ ((f, z) :: post0).*1).
    { intros Hin. apply (Hdisj c); [|by right].
      rewrite fmap_app. apply elem_of_app. right. cbn. by left. }
    assert (Hfpre : f ∉ (pre0 ++ [(c, y)]).*1).
    { intros Hin. apply (Hdisj f Hin). right. cbn. by left. }
    pose proof (seg_set_next _ _ _ (Some f) _ _ _ Hndpre Hpre) as Hpre'.
    unfold assign_closer, assign_further, set_nodes, set_head, set_tail,
      set_length.
    simpl.
    refine (conj _ (conj _ (conj _ (conj _ (conj _ _))))).
    + apply seg_app. split.
      * cbn [first_node].
        apply (seg_frame (alter (fun it => mkItem (item it) (closer it) (Some f))
                            c (nodes l))); [|exact Hpre'].
        intros m Hm.
        do 2 (rewrite lookup_alter_ne by (intros ->; by apply Hnpre)).
        rewrite lookup_alter_ne by (intros ->; by apply Hfpre). done.
      * rewrite last_node_snoc.
        apply (seg_frame (alter (fun it => mkItem (item it) (Some c) (further it))
                            f (alter (fun it => mkItem (item it) (closer it) (Some f))
                                 c (nodes l)))).
        { intros m Hm.
          do 2 (rewrite lookup_alter_ne by (intros ->; by apply Hnpost)). done. }
        apply (seg_set_prev _ (Some n)); [exact Hndpost|].
        apply (seg_frame (nodes l)); [|exact Hpost].
        intros m Hm. apply lookup_alter_ne. intros ->. by apply Hcpost.
    + rewrite Hhead. by destruct pre0 as [|[? ?] ?].
    + rewrite Htail, !last_node_app_cons.
      apply (last_node_app_cons _ [] post0 (f, z)).
    + exact Hlen'.
    + reflexivity.
    + rewrite !lookup_alter_eq, !lookup_alter_ne by congruence.
      rewrite Hn. done.
Qed.

(** Removing a linked item from a well-linked list takes it out of the
    order and leaves the list well linked. *)
Lemma remove_well_linked (l : LinkedList.t) (pre post : list (Ref * Ref))
    (n x : Ref) :
  well_linked l (pre ++ (n, x) :: post) →
  well_linked (remove x l) (pre ++ post).
Proof.
  intros Hwl.
  destruct (_remove_well_linked l pre post n x Hwl)
    as (Hseg & Hhead & Htail & Hlen & Hfr & _).
  destruct Hwl as (_ & _ & _ & _ & Hnd & Hfresh & Hlk).
  assert (Hx : _lookup l !! x = Some n).
  { apply Hlk. rewrite elem_of_app, elem_of_cons. right. by left. }
  unfold remove. rewrite Hx. unfold well_linked.
  cbn [nodes _head _tail _length fresh _lookup set_lookup].
  split_and!; try done.
  - rewrite fmap_app, fmap_cons in Hnd. rewrite fmap_app.
    apply NoDup_app in Hnd as (H1 & H2 & H3).
    apply NoDup_cons in H3 as [H3 H4]. apply NoDup_app. split_and!; try done.
    intros m Hm Hm'. apply (H2 m Hm). by right.
  - rewrite Hfr. intros m Hm. apply Hfresh.
    rewrite fmap_app, fmap_cons. rewrite fmap_app in Hm.
    apply elem_of_app in Hm as [Hm|Hm]; apply elem_of_app;
      [by left|right; by right].
  - intros y m. rewrite lookup__remove.
    assert (Hiff : (m, y) ∈ pre ++ post ↔ (m, y) ∈ pre ++ (n, x) :: post ∧ y ≠ x).
    { split.
      - intros Hin. assert (Hin' : (m, y) ∈ pre ++ (n, x) :: post).
        { apply elem_of_app in Hin as [Hin|Hin]; apply elem_of_app;
            [by left|right; by right]. }
        split; [exact Hin'|]. intros ->.
        apply Hlk in Hin'. rewrite Hx in Hin'. injection Hin' as <-.
        rewrite fmap_app, fmap_cons in Hnd.
        apply NoDup_app in Hnd as (H1 & H2 & H3).
        apply NoDup_cons in H3 as [H3 H4].
        apply elem_of_app in Hin as [Hin|Hin].
        + apply (H2 n); [|by left]. apply list_elem_of_fmap. by exists (n, x).
        + apply H3. apply list_elem_of_fmap. by exists (n, x).
      - intros [Hin Hne].
        apply elem_of_app in Hin as [Hin|Hin]; apply elem_of_app; [by left|].
        apply elem_of_cons in Hin as [[= -> ->]|Hin]; [done|by right]. }
    rewrite Hiff, <- Hlk. destruct (decide (x = y)) as [<-|Hne].
    + rewrite lookup_delete_eq. split; [discriminate|]. by intros [_ ?].
    + rewrite lookup_delete_ne by exact Hne. split; [|by intros [? _]].
      intros H. split; [exact H|]. by intros ->.
Qed.

(** Inserting an item that is already linked makes its node the head but
    leaves the node without [further]: the list stays well linked only if
    the item was alone in it. *)
Lemma insertAtHead_linked (x : Ref) (l : LinkedList.t) (nl : list (Ref * Ref)) :
  well_linked l nl →
  linked x l →
  ∃ n, _head (insertAtHead x l) = Some n ∧
       nodes (insertAtHead x l) !! n = Some (mkItem x None None) ∧
       _length (insertAtHead x l) = _length l.
Proof.
  intros Hwl [n Hx].
  assert (Hin : (n, x) ∈ nl) by (by apply Hwl).
  apply list_elem_of_split in Hin as (pre & post & ->).
  destruct (_remove_well_linked l pre post n x Hwl)
    as (_ & Hhead & _ & Hlen & _ & Hn).
  destruct Hwl as (_ & _ & _ & Hlen0 & Hnd & _ & _).
  exists n. unfold insertAtHead. rewrite Hx, Hhead.
  destruct (first_node (pre ++ post) None) as [h|] eqn:Hh.
  - unfold assign_closer, set_nodes, set_head, set_length. simpl.
    split; [reflexivity|]. split.
    + rewrite lookup_alter_ne; [exact Hn|]. intros Heq.
      rewrite fmap_app, fmap_cons in Hnd.
      apply NoDup_app in Hnd as (_ & Hdisj & Hpost).
      apply NoDup_cons in Hpost as [Hnpost _].
      destruct pre as [|[h' y] pre']; cbn in Hh.
      * destruct post as [|[h' y] post']; cbn in Hh; [done|].
        assert (h' = n) as -> by congruence.
        apply Hnpost. cbn. by left.
      * assert (h' = n) as -> by congruence.
        apply (Hdisj n); cbn; by left.
    + rewrite Hlen, Hlen0, !length_app. cbn [List.length]. lia.
  - unfold set_tail, set_head, set_length. simpl.
    split; [reflexivity|]. split; [exact Hn|].
    rewrite Hlen, Hlen0, !length_app. cbn [List.length]. lia.
Qed.

Lemma insertAtHead_linked_breaks (x : Ref) (l : LinkedList.t)
    (nl : list (Ref * Ref)) :
  well_linked l nl →
  linked x l →
  (2 ≤ List.length nl)%nat →
  ∀ nl', ¬ well_linked (insertAtHead x l) nl'.
Proof.
  intros Hwl Hx Hlen nl' Hwl'.
  destruct (insertAtHead_linked x l nl Hwl Hx) as (n & Hhead & Hn & Hlen').
  destruct Hwl as (_ & _ & _ & Hl & _).
  destruct Hwl' as (Hseg & Hhead' & _ & Hl' & _).
  rewrite Hhead in Hhead'. rewrite Hlen', Hl in Hl'.
  destruct nl' as [|[m y] [|[m' y'] rest]]; cbn in Hhead', Hl', Hseg.
  - discriminate.
  - lia.
  - injection Hhead' as <-. destruct Hseg as [Hn' _].
    rewrite Hn in Hn'. discriminate.
Qed.

End LinkedListFacts.

(** * Facts about [Cache.ts] *)

Section CacheFacts.
Import Cache.
Context {Param Return Err : Type}.
Variable cacheSettings : CacheSettings Param Return.

Abbreviation call := (Cache.call (Err:=Err) cacheSettings).
Abbreviation settle := (Cache.settle (Err:=Err) cacheSettings).

(** ** [detach] *)

Lemma detach_objs (e : Ref) (s : State Param) : objs (detach e s) = objs s.
Proof. unfold detach. cbn. destruct (objs s !! e); reflexivity. Qed.

Lemma detach_invoked (e : Ref) (s : State Param) : invoked (detach e s) = invoked s.
Proof. unfold detach. cbn. destruct (objs s !! e); reflexivity. Qed.

Lemma detach_nextPromise (e : Ref) (s : State Param) :
  nextPromise (detach e s) = nextPromise s.
Proof. unfold detach. cbn. destruct (objs s !! e); reflexivity. Qed.

Lemma detach_callbacks (e : Ref) (s : State Param) :
  callbacks (detach e s) = callbacks s.
Proof. unfold detach. cbn. destruct (objs s !! e); reflexivity. Qed.

Lemma detach_not_linked (e : Ref) (s : State Param) :
  ¬ LinkedList.linked e (entriesByAccess (detach e s)).
Proof.
  unfold detach. cbn. destruct (objs s !! e); cbn; apply remove_not_linked.
Qed.

Lemma detach_byHash (e : Ref) (ent : EntryState.t) (s : State Param) :
  objs s !! e = Some ent →
  entriesByHash (detach e s) = delete (EntryState.paramHash ent) (entriesByHash s).
Proof. intros H. unfold detach. cbn. rewrite H. reflexivity. Qed.

(** ** A call on a fingerprint the table does not hold *)

Lemma call_untracked (param : Param) (r : FnResult Err) (s : State Param) :
  entriesByHash s !! paramHasher cacheSettings param = None →
  invoked (call param r s).2 = param :: invoked s ∧
  (r = FnPromise → (call param r s).1 = Returned (Some (nextPromise s))).
Proof.
  intros Hnone. unfold Cache.call, call_enter. rewrite Hnone. cbn.
  destruct r as [|error]; cbn.
  - split; [|intros _].
    + repeat (case_match; cbn; try reflexivity).
    + repeat (case_match; cbn). all: unfold cache_of; cbn.
      all: rewrite !lookup_alter_eq, lookup_insert_eq; reflexivity.
  - split; [|discriminate]. apply detach_invoked.
Qed.

(** ** The reentrancy guard *)

(** C5: a call whose fingerprint is held by an entry with [isBeingUsed]
    set throws the recursion error at once: the wrapped function is not
    invoked and the whole closure state (entry table, recency list, every
    field of every entry) is left as it was. *)
Theorem reentrant_call_throws (param : Param) (r : FnResult Err)
    (s : State Param) (e : Ref) (ent : EntryState.t) :
  entriesByHash s !! paramHasher cacheSettings param = Some e →
  objs s !! e = Some ent →
  EntryState.isBeingUsed ent = true →
  call param r s = (Threw (RecursionError recursion_message), s).
Proof.
  intros Hhash Hobj Hused. unfold Cache.call, call_enter.
  rewrite Hhash, Hobj. cbn. rewrite Hused. reflexivity.
Qed.

(** ** Completion callbacks *)

(** When the entry no longer holds the promise a completion belongs to,
    the [then] callback takes the branch without [return]: the promise is
    fulfilled with [undefined], and nothing else changes. *)
Lemma stale_completion (promise e : Ref) (param : Param)
    (result : Return) (s : State Param) :
  callbacks s !! promise = Some (e, param) →
  cache_of e s ≠ Some promise →
  settle promise (Resolves result) s = Some (Fulfilled None, taken promise s).
Proof.
  intros Hcb Hstale. unfold Cache.settle. rewrite Hcb.
  rewrite bool_decide_eq_false_2 by exact Hstale. reflexivity.
Qed.

(** What the [catch] callback does in every state: when the promise of
    [fn] rejects and the entry still holds the promise built on it, the
    callers' promise rejects with the same error, the fingerprint of the
    entry leaves the table, the entry is no longer a key of the list's
    lookup, and the next call with that fingerprint invokes [fn] and
    returns a promise that is not the rejected one. *)
Lemma rejection_detaches_entry (promise e : Ref) (param : Param)
    (ent : EntryState.t) (error : Err) (s : State Param) :
  callbacks s !! promise = Some (e, param) →
  objs s !! e = Some ent →
  EntryState.cache ent = Some promise →
  (promise < nextPromise s)%nat →
  ∃ s',
    settle promise (Rejects error) s = Some (Rejected error, s') ∧
    entriesByHash s' !! EntryState.paramHash ent = None ∧
    ¬ LinkedList.linked e (entriesByAccess s') ∧
    ∀ p r, paramHasher cacheSettings p = EntryState.paramHash ent →
      invoked (call p r s').2 = p :: invoked s' ∧
      (r = FnPromise →
       ∃ h, (call p r s').1 = Returned (Some h) ∧ h ≠ promise).
Proof.
  intros Hcb Hobj Hcache Hlt. unfold Cache.settle. rewrite Hcb.
  assert (Hcur : cache_of e (taken promise s) = Some promise).
  { unfold cache_of. cbn. rewrite Hobj. exact Hcache. }
  fold (taken promise s). rewrite bool_decide_eq_true_2 by exact Hcur.
  eexists. split; [reflexivity|].
  assert (Hgone : entriesByHash (detach e (taken promise s))
                    !! EntryState.paramHash ent = None).
  { rewrite (detach_byHash e ent) by exact Hobj. apply lookup_delete_eq. }
  split; [exact Hgone|]. split; [apply detach_not_linked|].
  intros p r Hp. rewrite <- Hp in Hgone.
  destruct (call_untracked p r _ Hgone) as [Hinv Hret].
  split; [exact Hinv|]. intros ->. eexists. split; [by apply Hret|].
  rewrite detach_nextPromise. cbn. lia.
Qed.

(** What the [then] callback does in every state: it acts only when the
    entry still holds the promise the completion belongs to.  Then it sets
    [isResolved], and when a [shouldCache] is configured and answers
    [false] the fingerprint of the entry leaves the table and the entry is
    no longer a key of the list's lookup, so that the next call with that
    fingerprint invokes [fn] afresh.  Otherwise entries, table and list are
    left untouched. *)
Lemma uncacheable_result_detaches (promise e : Ref) (param : Param)
    (result : Return) (s : State Param) :
  callbacks s !! promise = Some (e, param) →
  ∃ out s',
    settle promise (Resolves result) s = Some (out, s') ∧
    (cache_of e s ≠ Some promise →
       objs s' = objs s ∧ entriesByHash s' = entriesByHash s ∧
       entriesByAccess s' = entriesByAccess s) ∧
    (∀ ent, objs s !! e = Some ent → EntryState.cache ent = Some promise →
       out = Fulfilled (Some result) ∧
       EntryState.isResolved <$> objs s' !! e = Some true ∧
       ∀ f, shouldCache cacheSettings = Some f → f result param = false →
         entriesByHash s' !! EntryState.paramHash ent = None ∧
         ¬ LinkedList.linked e (entriesByAccess s') ∧
         ∀ p r, paramHasher cacheSettings p = EntryState.paramHash ent →
           invoked (call p r s').2 = p :: invoked s' ∧
           (r = FnPromise →
            (call p r s').1 = Returned (Some (nextPromise s')))).
Proof.
  intros Hcb. unfold Cache.settle. rewrite Hcb. fold (taken promise s).
  destruct (decide (cache_of e s = Some promise)) as [Hcur|Hstale].
  - rewrite bool_decide_eq_true_2 by exact Hcur.
    eexists _, _. split; [reflexivity|]. split; [done|].
    intros ent Hobj Hcache. split; [reflexivity|].
    assert (Hres : EntryState.isResolved <$>
              objs (assign_isResolved e true (taken promise s)) !! e = Some true).
    { cbn. rewrite lookup_alter_eq, Hobj. reflexivity. }
    split.
    { destruct (shouldCache cacheSettings) as [f|]; [|exact Hres].
      destruct (f result param); cbn [negb]; [exact Hres|].
      rewrite detach_objs. exact Hres. }
    intros f -> Hf. rewrite Hf. cbn [negb].
    set (s1 := assign_isResolved e true (taken promise s)).
    assert (Hobj1 : objs s1 !! e = Some (EntryState.mk (EntryState.paramHash ent)
              (EntryState.paramState ent) (EntryState.cache ent)
              (EntryState.isBeingUsed ent) true)).
    { subst s1. cbn. rewrite lookup_alter_eq, Hobj. reflexivity. }
    assert (Hgone : entriesByHash (detach e s1) !! EntryState.paramHash ent = None).
    { rewrite (detach_byHash e _ s1 Hobj1). apply lookup_delete_eq. }
    split; [exact Hgone|]. split; [apply detach_not_linked|].
    intros p r Hp. rewrite <- Hp in Hgone. exact (call_untracked p r _ Hgone).
  - rewrite bool_decide_eq_false_2 by exact Hstale.
    eexists _, _. split; [reflexivity|]. split; [done|].
    intros ent Hobj Hcache. exfalso. apply Hstale.
    unfold cache_of. rewrite Hobj. exact Hcache.
Qed.

(** ** Calls on a tracked fingerprint *)

(** The branch of an existing entry whose cache is not useable: the state
    differs, or the result has not resolved. *)
Lemma call_reinvoke (param : Param) (s : State Param) (e : Ref)
    (ent : EntryState.t) :
  entriesByHash s !! paramHasher cacheSettings param = Some e →
  objs s !! e = Some ent →
  EntryState.isBeingUsed ent = false →
  compareCallState (paramState cacheSettings param) (EntryState.paramState ent)
    && EntryState.isResolved ent = false →
  (∀ r, invoked (call param r s).2 = param :: invoked s ∧
        EntryState.paramState <$> objs (call param r s).2 !! e
          = Some (paramState cacheSettings param)) ∧
  (∀ error, (call param (FnThrow error) s).1 = Threw (FnError error)) ∧
  (call param FnPromise s).1 = Returned (Some (nextPromise s)) ∧
  objs (call param FnPromise s).2 !! e
    = Some (EntryState.mk (EntryState.paramHash ent)
              (paramState cacheSettings param) (Some (nextPromise s)) false false) ∧
  callbacks (call param FnPromise s).2
    = <[nextPromise s := (e, param)]> (callbacks s) ∧
  entriesByHash (call param FnPromise s).2 = entriesByHash s ∧
  nextPromise (call param FnPromise s).2 = S (nextPromise s).
Proof.
  intros Hhash Hobj Hused Hno. unfold Cache.call, call_enter.
  rewrite Hhash, Hobj. cbn. rewrite Hused, Hno. cbn.
  split; [|split].
  - intros [|error]; cbn.
    + rewrite !lookup_alter_eq, Hobj. done.
    + rewrite detach_invoked, detach_objs. cbn.
      rewrite !lookup_alter_eq, Hobj. done.
  - reflexivity.
  - unfold cache_of. cbn. rewrite !lookup_alter_eq, Hobj. done.
Qed.

(** C7: a call on a tracked fingerprint whose state is not strictly equal
    to the stored one stores the new state in the entry and invokes [fn]
    again; the promise built on what [fn] returns takes the place of the
    old one in the entry, is a different promise, and is what the call
    returns.  (When [fn] raises instead, the call throws its error.) *)
Theorem state_change_reinvokes (param : Param) (r : FnResult Err)
    (s : State Param) (e : Ref) (ent : EntryState.t) :
  entriesByHash s !! paramHasher cacheSettings param = Some e →
  objs s !! e = Some ent →
  EntryState.isBeingUsed ent = false →
  compareCallState (paramState cacheSettings param) (EntryState.paramState ent)
    = false →
  EntryState.cache ent ≠ Some (nextPromise s) →
  invoked (call param r s).2 = param :: invoked s ∧
  EntryState.paramState <$> objs (call param r s).2 !! e
    = Some (paramState cacheSettings param) ∧
  match r with
  | FnPromise =>
    ∃ h, (call param r s).1 = Returned (Some h) ∧
         cache_of e (call param r s).2 = Some h ∧
         EntryState.cache ent ≠ Some h
  | FnThrow error => (call param r s).1 = Threw (FnError error)
  end.
Proof.
  intros Hhash Hobj Hused Hdiff Hfresh.
  assert (Hno : compareCallState (paramState cacheSettings param)
                  (EntryState.paramState ent) && EntryState.isResolved ent = false)
    by (rewrite Hdiff; reflexivity).
  destruct (call_reinvoke param s e ent Hhash Hobj Hused Hno)
    as (Hall & Hthrow & Hret & Hobj' & _).
  destruct (Hall r) as [Hinv Hst]. split; [exact Hinv|]. split; [exact Hst|].
  destruct r as [|error]; [|apply Hthrow].
  exists (nextPromise s). split; [exact Hret|]. split.
  - unfold cache_of. rewrite Hobj'. reflexivity.
  - exact Hfresh.
Qed.

(** The branch of an existing entry whose cache is useable. *)
Lemma call_reuse (param : Param) (r : FnResult Err) (s : State Param)
    (e : Ref) (ent : EntryState.t) :
  entriesByHash s !! paramHasher cacheSettings param = Some e →
  objs s !! e = Some ent →
  EntryState.isBeingUsed ent = false →
  compareCallState (paramState cacheSettings param) (EntryState.paramState ent)
    && EntryState.isResolved ent = true →
  call param r s
  = (Returned (EntryState.cache ent),
     set_byAccess (LinkedList.insertAtHead e) s).
Proof.
  intros Hhash Hobj Hused Hyes. unfold Cache.call, call_enter.
  rewrite Hhash, Hobj. cbn. rewrite Hused, Hyes. cbn.
  unfold cache_of. cbn. rewrite Hobj. reflexivity.
Qed.

(** C3, as the code has it: a call on a tracked fingerprint with a state
    strictly equal to the stored one returns the promise the entry holds,
    without invoking [fn], when the entry's result has resolved; while the
    result is still pending the call invokes [fn] again and returns a new
    promise. *)
Theorem reuse_requires_resolution (param : Param) (s : State Param)
    (e : Ref) (ent : EntryState.t) :
  entriesByHash s !! paramHasher cacheSettings param = Some e →
  objs s !! e = Some ent →
  EntryState.isBeingUsed ent = false →
  compareCallState (paramState cacheSettings param) (EntryState.paramState ent)
    = true →
  EntryState.cache ent ≠ Some (nextPromise s) →
  (EntryState.isResolved ent = true →
     ∀ r, (call param r s).1 = Returned (EntryState.cache ent) ∧
          invoked (call param r s).2 = invoked s ∧
          objs (call param r s).2 = objs s ∧
          entriesByHash (call param r s).2 = entriesByHash s) ∧
  (EntryState.isResolved ent = false →
     invoked (call param FnPromise s).2 = param :: invoked s ∧
     ∃ h, (call param FnPromise s).1 = Returned (Some h) ∧
          EntryState.cache ent ≠ Some h).
Proof.
  intros Hhash Hobj Hused Hsame Hfresh. split; intros Hres.
  - intros r. rewrite (call_reuse param r s e ent); try done.
    rewrite Hsame, Hres. reflexivity.
  - assert (Hno : compareCallState (paramState cacheSettings param)
                    (EntryState.paramState ent) && EntryState.isResolved ent = false)
      by (rewrite Hres; apply andb_false_r).
    destruct (call_reinvoke param s e ent Hhash Hobj Hused Hno)
      as (Hall & _ & Hret & _).
    split; [apply Hall|]. exists (nextPromise s). split; [exact Hret|].
    exact Hfresh.
Qed.

(** C10, with the invalidation in it: an entry holds the pending promise
    [promise]; a later call on the same fingerprint finds the cache not
    useable and replaces it; when the computation behind [promise] then
    resolves with [result], [promise] is fulfilled with [undefined]. *)
Theorem superseded_promise_yields_undefined (promise e : Ref)
    (param0 param : Param) (result : Return) (ent : EntryState.t)
    (s : State Param) :
  callbacks s !! promise = Some (e, param0) →
  entriesByHash s !! paramHasher cacheSettings param = Some e →
  objs s !! e = Some ent →
  EntryState.cache ent = Some promise →
  EntryState.isBeingUsed ent = false →
  compareCallState (paramState cacheSettings param) (EntryState.paramState ent)
    && EntryState.isResolved ent = false →
  (promise < nextPromise s)%nat →
  (call param FnPromise s).1 ≠ Returned (Some promise) ∧
  settle promise (Resolves result) (call param FnPromise s).2
  = Some (Fulfilled None, taken promise (call param FnPromise s).2).
Proof.
  intros Hcb Hhash Hobj Hcache Hused Hno Hlt.
  destruct (call_reinvoke param s e ent Hhash Hobj Hused Hno)
      as (_ & _ & Hret & Hobj' & Hcbs & _).
  split.
  - rewrite Hret. intros [=]. lia.
  - apply (stale_completion promise e param0).
    + rewrite Hcbs. rewrite lookup_insert_ne by lia. exact Hcb.
    + unfold cache_of. rewrite Hobj'. cbn. intros [=]. lia.
Qed.

(** ** Creation and eviction *)

(** What a creating call does in every state: a call on a fingerprint the
    table does not hold creates an entry, invokes [fn] and returns the
    promise built on its result.  If the list is then longer than
    [maxEntries], the entry [tail] reports is no longer a key of the list's
    lookup and its fingerprint leaves the table; otherwise both keep what
    they had.  With [maxEntries = 0] and nothing linked, the tail is the
    entry just created: it is evicted, and the call still returns its
    promise.  When the list is well linked, with [nl] its order from the
    latest insertion to the earliest, the new entry comes first, the entry
    evicted is the last one of the order, and the others stay linked in
    their order. *)
Lemma creation_evicts_tail (param : Param) (s : State Param) :
  entriesByHash s !! paramHasher cacheSettings param = None →
  ∃ mid,
    call_enter (Err:=Err) cacheSettings param s
      = inr (InCreated (nextObj s), mid) ∧
    (call param FnPromise s).1 = Returned (Some (nextPromise s)) ∧
    invoked (call param FnPromise s).2 = param :: invoked s ∧
    (LinkedList.length (entriesByAccess mid) > maxEntries cacheSettings →
       ∀ tl ent,
         LinkedList.tail (entriesByAccess mid) = Some tl →
         objs (call param FnPromise s).2 !! tl = Some ent →
         ¬ LinkedList.linked tl (entriesByAccess (call param FnPromise s).2) ∧
         entriesByHash (call param FnPromise s).2 !! EntryState.paramHash ent
           = None) ∧
    (LinkedList.length (entriesByAccess mid) ≤ maxEntries cacheSettings →
       entriesByAccess (call param FnPromise s).2 = entriesByAccess mid ∧
       entriesByHash (call param FnPromise s).2 = entriesByHash mid) ∧
    (maxEntries cacheSettings = 0 →
     LinkedList.is_empty (entriesByAccess s) →
       LinkedList.tail (entriesByAccess mid) = Some (nextObj s) ∧
       LinkedList.is_empty (entriesByAccess (call param FnPromise s).2) ∧
       entriesByHash (call param FnPromise s).2 = entriesByHash s) ∧
    (∀ nl,
       LinkedList.well_linked (entriesByAccess s) nl →
       ¬ LinkedList.linked (nextObj s) (entriesByAccess s) →
       LinkedList.well_linked (entriesByAccess mid)
         ((LinkedList.fresh (entriesByAccess s), nextObj s) :: nl) ∧
       (LinkedList.length (entriesByAccess mid) > maxEntries cacheSettings →
        ∃ front n tl,
          (LinkedList.fresh (entriesByAccess s), nextObj s) :: nl
            = front ++ [(n, tl)] ∧
          LinkedList.tail (entriesByAccess mid) = Some tl ∧
          LinkedList.well_linked
            (entriesByAccess (call param FnPromise s).2) front)).
Proof.
  intros Hnone.
  destruct (call_untracked param FnPromise s Hnone) as [Hinv Hret].
  eexists. split.
  { unfold call_enter. rewrite Hnone. reflexivity. }
  split; [by apply Hret|]. split; [exact Hinv|].
  unfold Cache.call, call_enter. rewrite Hnone. cbn.
  set (l := LinkedList.insertAtHead (nextObj s) (entriesByAccess s)).
  split; [|split; [|split]].
  - intros Hgt tl ent Htl.
    rewrite bool_decide_eq_true_2 by exact Hgt. rewrite Htl.
    match goal with
    | |- context [match ?x with Some _ => _ | None => _ end] =>
      destruct x as [r|] eqn:Hr
    end; cbn.
    + rewrite Hr. intros [= ->]. split; [apply remove_not_linked|].
      apply lookup_delete_eq.
    + rewrite Hr. discriminate.
  - intros Hle. rewrite bool_decide_eq_false_2 by lia. done.
  - intros Hmax Hempty.
    destruct (insertAtHead_is_empty (nextObj s) _ Hempty) as (Htl & Hlen & Hrm).
    fold l in Htl, Hlen, Hrm. split; [exact Htl|].
    rewrite bool_decide_eq_true_2 by lia. rewrite Htl.
    rewrite !lookup_alter_eq, lookup_insert_eq. cbn.
    split; [exact Hrm|]. by apply delete_insert_id.
  - intros nl Hwl Hnew. apply eq_None_not_Some in Hnew.
    pose proof (insertAtHead_unlinked (nextObj s) _ nl Hwl Hnew) as Hwl'.
    fold l in Hwl'. split; [exact Hwl'|]. intros Hgt.
    destruct (exists_last
                (l:=(LinkedList.fresh (entriesByAccess s), nextObj s) :: nl))
      as (front & [n tl] & Hsplit); [discriminate|].
    rewrite Hsplit in Hwl'. exists front, n, tl. split; [exact Hsplit|].
    assert (Htl : LinkedList.tail l = Some tl).
    { rewrite (well_linked_tail l _ Hwl'), last_snoc. reflexivity. }
    split; [exact Htl|].
    rewrite bool_decide_eq_true_2 by exact Hgt. rewrite Htl.
    pose proof (remove_well_linked l front [] n tl Hwl') as Hrm.
    rewrite app_nil_r in Hrm.
    match goal with
    | |- context [match ?x with Some _ => _ | None => _ end] =>
      destruct x
    end; exact Hrm.
Qed.

(** ** Promise identities are never handed out twice *)

Lemma cache_below_mono (n n' : Ref) (m : gmap nat EntryState.t) :
  (n ≤ n')%nat → cache_below n m → cache_below n' m.
Proof. intros Hle Hm e ent h He Hh. specialize (Hm e ent h He Hh). lia. Qed.

Lemma cache_below_alter (f : EntryState.t → EntryState.t) (k n : Ref)
    (m : gmap nat EntryState.t) :
  (∀ ent h, EntryState.cache (f ent) = Some h →
     EntryState.cache ent = Some h ∨ (h < n)%nat) →
  cache_below n m → cache_below n (alter f k m).
Proof.
  intros Hf Hm e ent h He Hh. destruct (decide (k = e)) as [->|Hne].
  - rewrite lookup_alter_eq in He.
    destruct (m !! e) as [ent0|] eqn:H0; [|discriminate].
    injection He as <-. destruct (Hf _ _ Hh) as [Hold|Hlt]; [|exact Hlt].
    exact (Hm e ent0 h H0 Hold).
  - rewrite lookup_alter_ne in He by exact Hne. exact (Hm e ent h He Hh).
Qed.

Lemma cache_below_insert (k n : Ref) (v : EntryState.t)
    (m : gmap nat EntryState.t) :
  EntryState.cache v = None →
  cache_below n m → cache_below n (<[k := v]> m).
Proof.
  intros Hv Hm e ent h He Hh. destruct (decide (k = e)) as [->|Hne].
  - rewrite lookup_insert_eq in He. injection He as <-. congruence.
  - rewrite lookup_insert_ne in He by exact Hne. exact (Hm e ent h He Hh).
Qed.

(** Side conditions of [cache_below_alter] for the field assignments. *)
Ltac cache_kept :=
  let H := fresh in
  intros ? ? H; cbn in H;
  first [ left; exact H | right; injection H as <-; lia ].

Lemma detach_allocated (e : Ref) (s : State Param) :
  allocated s → allocated (detach e s).
Proof.
  unfold allocated.
  rewrite detach_objs, detach_callbacks, detach_nextPromise. done.
Qed.

Lemma invoke_enter_allocated (e : Ref) (param : Param) (s : State Param) :
  allocated s → allocated (invoke_enter e param s).
Proof.
  intros [Ho Hc]. split; [|exact Hc]. cbn.
  do 2 (apply cache_below_alter; [cache_kept|]). exact Ho.
Qed.

Lemma invoke_leave_allocated (e : Ref) (param : Param) (r : FnResult Err)
    (s : State Param) :
  allocated s → allocated (invoke_leave e param r s).2.
Proof.
  intros Hs. destruct r as [|error]; [|by apply detach_allocated].
  destruct Hs as [Ho Hc]. split; cbn.
  - do 2 (apply cache_below_alter; [cache_kept|]).
    apply (cache_below_mono (nextPromise s)); [lia|exact Ho].
  - intros h Hh. destruct (decide (nextPromise s = h)) as [<-|Hne]; [lia|].
    rewrite lookup_insert_ne in Hh by exact Hne. specialize (Hc h Hh). lia.
Qed.

Lemma set_byAccess_allocated (f : LinkedList.t → LinkedList.t) (s : State Param) :
  allocated s → allocated (set_byAccess f s).
Proof. done. Qed.

Lemma set_byHash_allocated (f : gmap string Ref → gmap string Ref)
    (s : State Param) :
  allocated s → allocated (set_byHash f s).
Proof. done. Qed.

Lemma call_enter_allocated (param : Param) (s : State Param) :
  allocated s →
  match call_enter (Err:=Err) cacheSettings param s with
  | inl (_, s1) => allocated s1
  | inr (_, s1) => allocated s1
  end.
Proof.
  intros Hs. unfold call_enter.
  destruct (entriesByHash s !! _) as [e|].
  - destruct (default false _); [exact Hs|].
    destruct (negb _).
    + apply invoke_enter_allocated. destruct Hs as [Ho Hc].
      split; [|exact Hc]. cbn. apply cache_below_alter; [cache_kept|exact Ho].
    + apply set_byAccess_allocated, Hs.
  - apply invoke_enter_allocated, set_byHash_allocated, set_byAccess_allocated.
    destruct Hs as [Ho Hc]. split; [|exact Hc]. cbn.
    apply cache_below_insert; [reflexivity|exact Ho].
Qed.

Lemma call_leave_allocated (k : Frame) (param : Param) (r : FnResult Err)
    (s : State Param) :
  allocated s → allocated (call_leave cacheSettings k param r s).2.
Proof.
  intros Hs. pose proof (invoke_leave_allocated) as Hleave.
  unfold call_leave. destruct k as [e|e].
  - specialize (Hleave e param r s Hs).
    destruct (invoke_leave e param r s) as [[error|] s1]; cbn in *;
      [exact Hleave|]. apply set_byAccess_allocated, Hleave.
  - specialize (Hleave e param r s Hs).
    destruct (invoke_leave e param r s) as [[error|] s1]; cbn in *;
      [exact Hleave|].
    destruct (bool_decide _); [|exact Hleave].
    destruct (LinkedList.tail _) as [tl|]; [|exact Hleave].
    destruct (objs _ !! tl); [apply set_byHash_allocated|];
      apply set_byAccess_allocated, Hleave.
Qed.

Lemma call_allocated (param : Param) (r : FnResult Err) (s : State Param) :
  allocated s → allocated (call param r s).2.
Proof.
  intros Hs. pose proof (call_enter_allocated param s Hs) as Henter.
  unfold Cache.call.
  destruct (call_enter cacheSettings param s) as [[res s1]|[k s1]].
  - exact Henter.
  - by apply call_leave_allocated.
Qed.

Lemma settle_allocated (promise : Ref) (o : Settlement Return Err)
    (s : State Param) :
  allocated s →
  match settle promise o s with
  | Some (_, s1) => allocated s1
  | None => True
  end.
Proof.
  intros [Ho Hc]. unfold Cache.settle.
  destruct (callbacks s !! promise) as [[e param]|]; [|exact I].
  assert (Ht : allocated (taken promise s)).
  { split; [exact Ho|]. cbn. intros h Hh. apply Hc.
    destruct (decide (promise = h)) as [->|Hne].
    - rewrite lookup_delete_eq in Hh. by destruct Hh.
    - by rewrite lookup_delete_ne in Hh. }
  assert (Hr : allocated (assign_isResolved e true (taken promise s))).
  { destruct Ht as [Ho' Hc']. split; [|exact Hc']. cbn.
    apply cache_below_alter; [cache_kept|exact Ho]. }
  destruct o as [result|error]; destruct (bool_decide _); try exact Ht.
  - destruct (shouldCache cacheSettings) as [f|]; [|exact Hr].
    destruct (negb _); [by apply detach_allocated|exact Hr].
  - by apply detach_allocated.
Qed.

(** Every cache reached from the initial one by calls and settlements
    satisfies [allocated]: the promise a new invocation builds differs
    from every promise an entry holds or a callback waits on. *)
Lemma run_allocated (evs : list (Event (Param:=Param) (Return:=Return) (Err:=Err)))
    (s : State Param) :
  allocated s → allocated (run cacheSettings evs s).
Proof.
  revert s. induction evs as [|ev evs IH]; intros s Hs; [exact Hs|].
  cbn. apply IH. destruct ev as [param r|promise o]; cbn.
  - by apply call_allocated.
  - pose proof (settle_allocated promise o s Hs) as H.
    destruct (settle promise o s) as [[out s1]|]; [exact H|exact Hs].
Qed.

Lemma init_allocated : allocated (Param:=Param) init.
Proof.
  split.
  - intros e ent h He. cbn in He. by rewrite lookup_empty in He.
  - intros h [x Hx]. cbn in Hx. by rewrite lookup_empty in Hx.
Qed.

End CacheFacts.

(** * Facts about the version without the resolution flag *)

Section SimpleCacheFacts.
Import SimpleCache.
Context {Param Err : Type}.
Variable cacheSettings : CacheSettings Param.

Abbreviation scall := (SimpleCache.call (Err:=Err) cacheSettings).

(** The reentrancy guard is the same code. *)
Lemma simple_reentrant_call_throws (param : Param) (r : FnResult Err)
    (s : State Param) (e : Ref) (ent : EntryState.t) :
  entriesByHash s !! paramHasher cacheSettings param = Some e →
  objs s !! e = Some ent →
  EntryState.isBeingUsed ent = true →
  scall param r s = (Threw (RecursionError recursion_message), s).
Proof.
  intros Hhash Hobj Hused. unfold SimpleCache.call, call_enter.
  rewrite Hhash, Hobj. cbn. rewrite Hused. reflexivity.
Qed.

(** Here a strictly equal state is all reuse takes: the promise the entry
    holds is returned, pending or not, and [fn] is not invoked. *)
Lemma simple_call_reuse (param : Param) (r : FnResult Err) (s : State Param)
    (e : Ref) (ent : EntryState.t) :
  entriesByHash s !! paramHasher cacheSettings param = Some e →
  objs s !! e = Some ent →
  EntryState.isBeingUsed ent = false →
  compareCallState (paramState cacheSettings param) (EntryState.paramState ent)
    = true →
  scall param r s
  = (Returned (EntryState.cache ent),
     set_byAccess (LinkedList.insertAtHead e) s).
Proof.
  intros Hhash Hobj Hused Hsame. unfold SimpleCache.call, call_enter.
  rewrite Hhash, Hobj. cbn. rewrite Hused, Hsame. cbn.
  unfold cache_of. cbn. rewrite Hobj. reflexivity.
Qed.

End SimpleCacheFacts.

(** * Scenarios *)

(** [maxEntries: 2], calls A, B, C: A is evicted, B and C are tracked. *)
Example scenario_evict_oldest :
  let s := Cache.run settings2 (pending_calls ["A"; "B"; "C"]) Cache.init in
  Cache.entriesByHash s !! "A" = None ∧
  Cache.entriesByHash s !! "B" = Some 1%nat ∧
  Cache.entriesByHash s !! "C" = Some 2%nat ∧
  LinkedList.from_head (Cache.entriesByAccess s) = [2%nat; 1%nat] ∧
  LinkedList.from_tail (Cache.entriesByAccess s) = [1%nat; 2%nat].
Proof. vm_compute. repeat split; reflexivity. Qed.

(** [maxEntries: 2], calls A, B, A: A and B are tracked, nothing is
    evicted, and A's node is the head. *)
Example scenario_touch :
  let s := Cache.run settings2 (pending_calls ["A"; "B"; "A"]) Cache.init in
  Cache.entriesByHash s !! "A" = Some 0%nat ∧
  Cache.entriesByHash s !! "B" = Some 1%nat ∧
  LinkedList.tail (Cache.entriesByAccess s) = Some 1%nat ∧
  LinkedList._head (Cache.entriesByAccess s) = Some 0%nat.
Proof. vm_compute. repeat split; reflexivity. Qed.

(** The promise of A resolves, then A is called again: the promise is
    reused and [fn] has been invoked once. *)
Example scenario_reuse :
  let r := Cache.call (Err:=string) settings2 "A" FnPromise after_first_resolved in
  r.1 = Returned (Some 0%nat) ∧ Cache.invoked r.2 = ["A"].
Proof. vm_compute. split; reflexivity. Qed.

(** * The defect of [insertAtHead] and what follows from it *)

(** C2: [insertAtHead] on an item that is already linked unlinks it and
    makes it the head, but never sets its [further] to the former head.
    With [a], [b], then [a] again inserted, the head is [a], the length is
    2 and the tail is [b], yet following [further] from the head ends after
    [a]: the list is not the chain [a; b]. *)
Theorem insertAtHead_relinked_loses_further :
  let a := 0%nat in
  let b := 1%nat in
  let l := LinkedList.insertAtHead a
             (LinkedList.insertAtHead b
                (LinkedList.insertAtHead a LinkedList.empty)) in
  LinkedList.length l = 2 ∧
  LinkedList.tail l = Some b ∧
  LinkedList.from_tail l = [b; a] ∧
  LinkedList.from_head l = [a] ∧
  (LinkedList.further <$>
     (LinkedList._head l ≫= fun n => LinkedList.nodes l !! n)) = Some None.
Proof. vm_compute. repeat split; reflexivity. Qed.

(** C1: with [maxEntries: 2], after the calls A, B, A, A both A and B are
    tracked and A is the one accessed last, but the list reports A as its
    tail; the call C that follows evicts A and keeps B.  The same happens
    in the version without the resolution flag. *)
Theorem lru_order_violated :
  let before := Cache.run settings2 (pending_calls ["A"; "B"; "A"; "A"]) Cache.init in
  let after := Cache.step (Err:=string) settings2 before (Cache.Call "C" FnPromise) in
  let before' := SimpleCache.run simple2 (simple_calls ["A"; "B"; "A"; "A"])
                   SimpleCache.init in
  let after' := (SimpleCache.call (Err:=string) simple2 "C" FnPromise before').2 in
  (Cache.entriesByHash before !! "A" = Some 0%nat ∧
   Cache.entriesByHash before !! "B" = Some 1%nat ∧
   Cache.invoked before = ["A"; "A"; "B"; "A"] ∧
   LinkedList.tail (Cache.entriesByAccess before) = Some 0%nat ∧
   Cache.entriesByHash after !! "A" = None ∧
   Cache.entriesByHash after !! "B" = Some 1%nat ∧
   Cache.entriesByHash after !! "C" = Some 2%nat) ∧
  (SimpleCache.entriesByHash before' !! "A" = Some 0%nat ∧
   SimpleCache.entriesByHash before' !! "B" = Some 1%nat ∧
   LinkedList.tail (SimpleCache.entriesByAccess before') = Some 0%nat ∧
   SimpleCache.entriesByHash after' !! "A" = None ∧
   SimpleCache.entriesByHash after' !! "B" = Some 1%nat ∧
   SimpleCache.entriesByHash after' !! "C" = Some 2%nat).
Proof. vm_compute. repeat split; reflexivity. Qed.

(** C4: with [maxEntries: 2], after the calls A, B, A, A, C, B, E the
    table tracks three entries (B, C and E) and the list has length 3:
    the last call found as tail an entry that had already been evicted,
    and removed nothing.  The same happens in the version without the
    resolution flag. *)
Theorem bound_exceeded :
  let s := Cache.run settings2
             (pending_calls ["A"; "B"; "A"; "A"; "C"; "B"; "E"]) Cache.init in
  let s' := SimpleCache.run simple2
              (simple_calls ["A"; "B"; "A"; "A"; "C"; "B"; "E"])
              SimpleCache.init in
  (Cache.tracked s = 3%nat ∧
   Cache.entriesByHash s !! "B" = Some 1%nat ∧
   Cache.entriesByHash s !! "C" = Some 2%nat ∧
   Cache.entriesByHash s !! "E" = Some 3%nat ∧
   LinkedList.length (Cache.entriesByAccess s) = 3 ∧
   Cache.maxEntries settings2 = 2) ∧
  (SimpleCache.tracked s' = 3%nat ∧
   LinkedList.length (SimpleCache.entriesByAccess s') = 3 ∧
   SimpleCache.maxEntries simple2 = 2).
Proof. vm_compute. repeat split; reflexivity. Qed.

(** C9: with [maxEntries: 2], the call C after A, B, A, A creates an entry
    and finds the list longer than the maximum; B is the entry accessed the
    longest ago, yet B stays in table and list and A, accessed last, is
    what leaves.  After A, B, A, A, C, B the creating call E finds the list
    too long again and removes nothing: the table goes from two entries to
    three, and the tail still reports the entry of A, evicted before. *)
Theorem creation_spares_least_recent :
  let before := Cache.run settings2 (pending_calls ["A"; "B"; "A"; "A"]) Cache.init in
  let after := Cache.step (Err:=string) settings2 before (Cache.Call "C" FnPromise) in
  let before' := Cache.run settings2
                   (pending_calls ["A"; "B"; "A"; "A"; "C"; "B"]) Cache.init in
  let after' := Cache.step (Err:=string) settings2 before' (Cache.Call "E" FnPromise) in
  (Cache.entriesByHash before !! "C" = None ∧
   Cache.invoked before = ["A"; "A"; "B"; "A"] ∧
   LinkedList.length
     (LinkedList.insertAtHead 2%nat (Cache.entriesByAccess before)) = 3 ∧
   Cache.maxEntries settings2 = 2 ∧
   Cache.entriesByHash after !! "B" = Some 1%nat ∧
   LinkedList._lookup (Cache.entriesByAccess after) !! 1%nat = Some 1%nat ∧
   Cache.entriesByHash after !! "A" = None ∧
   LinkedList._lookup (Cache.entriesByAccess after) !! 0%nat = None) ∧
  (Cache.entriesByHash before' !! "E" = None ∧
   Cache.tracked before' = 2%nat ∧
   LinkedList.length
     (LinkedList.insertAtHead 3%nat (Cache.entriesByAccess before')) = 3 ∧
   Cache.tracked after' = 3%nat ∧
   LinkedList.length (Cache.entriesByAccess after') = 3 ∧
   LinkedList.tail (Cache.entriesByAccess after') = Some 0%nat ∧
   Cache.entriesByHash after' !! "A" = None).
Proof. vm_compute. repeat split; reflexivity. Qed.

(** C6: with [maxEntries: 3], after the calls A, B, C, A, A, C the entry of
    A is tracked and holds promise [4].  When the computation behind it
    rejects, the promise rejects with the error and the fingerprint leaves
    the table, but the list keeps the entry as its tail.  After the calls A
    and D that follow, the creating call D finds that stale tail and
    deletes from the table the entry the call A had just created, which
    stays in the list. *)
Theorem rejected_entry_stays_tail :
  let s := Cache.run settings3 (pending_calls reaccessed) Cache.init in
  Cache.entriesByHash s !! "A" = Some 0%nat ∧
  Cache.cache_of 0%nat s = Some 4%nat ∧
  match Cache.settle (Err:=string) settings3 4%nat (Rejects "boom") s with
  | Some (out, s1) =>
    out = Rejected "boom" ∧
    Cache.entriesByHash s1 !! "A" = None ∧
    LinkedList.tail (Cache.entriesByAccess s1) = Some 0%nat ∧
    LinkedList._tail (Cache.entriesByAccess s1) = Some 0%nat ∧
    LinkedList.length (Cache.entriesByAccess s1) = 2 ∧
    let s2 := Cache.run settings3 (pending_calls ["A"; "D"]) s1 in
    Cache.invoked s2 = "D" :: "A" :: Cache.invoked s1 ∧
    Cache.entriesByHash s2 !! "A" = None ∧
    LinkedList._lookup (Cache.entriesByAccess s2) !! 3%nat = Some 3%nat ∧
    LinkedList.tail (Cache.entriesByAccess s2) = Some 0%nat ∧
    LinkedList.length (Cache.entriesByAccess s2) = 4
  | None => False
  end.
Proof. vm_compute. repeat split; reflexivity. Qed.

(** C8: the same with a [shouldCache] that refuses every result.  After the
    calls A, B, C, A, A, C the computation behind promise [4] of A resolves:
    the promise is fulfilled with the result, the entry is marked resolved
    and its fingerprint leaves the table, but the list keeps the entry as
    its tail; the creating call D, after a new call A, deletes the new
    entry of A from the table and leaves it in the list. *)
Theorem refused_entry_stays_tail :
  let s := Cache.run refusing3 (pending_calls reaccessed) Cache.init in
  Cache.entriesByHash s !! "A" = Some 0%nat ∧
  Cache.cache_of 0%nat s = Some 4%nat ∧
  match Cache.settle (Err:=string) refusing3 4%nat (Resolves 7%nat) s with
  | Some (out, s1) =>
    out = Fulfilled (Some 7%nat) ∧
    Cache.EntryState.isResolved <$> Cache.objs s1 !! 0%nat = Some true ∧
    Cache.entriesByHash s1 !! "A" = None ∧
    LinkedList.tail (Cache.entriesByAccess s1) = Some 0%nat ∧
    LinkedList._tail (Cache.entriesByAccess s1) = Some 0%nat ∧
    LinkedList.length (Cache.entriesByAccess s1) = 2 ∧
    let s2 := Cache.run refusing3 (pending_calls ["A"; "D"]) s1 in
    Cache.invoked s2 = "D" :: "A" :: Cache.invoked s1 ∧
    Cache.entriesByHash s2 !! "A" = None ∧
    LinkedList._lookup (Cache.entriesByAccess s2) !! 3%nat = Some 3%nat ∧
    LinkedList.tail (Cache.entriesByAccess s2) = Some 0%nat ∧
    LinkedList.length (Cache.entriesByAccess s2) = 4
  | None => False
  end.
Proof. vm_compute. repeat split; reflexivity. Qed.

(** C3 as stated fails on [Cache.ts]: after a first call on ["A"] the
    entry is tracked, not in use, and its stored state is strictly equal
    to the state of a second call on ["A"]; nothing was evicted; yet the
    second call, arriving before the first promise resolves, invokes [fn]
    again and returns another promise. *)
Lemma pending_reuse_refuted :
  let first := Cache.call (Err:=string) settings2 "A" FnPromise Cache.init in
  let second := Cache.call (Err:=string) settings2 "A" FnPromise first.2 in
  Cache.entriesByHash first.2 !! "A" = Some 0%nat ∧
  Cache.objs first.2 !! 0%nat = Some first_entry ∧
  compareCallState (Cache.paramState settings2 "A")
    (Cache.EntryState.paramState first_entry) = true ∧
  first.1 = Returned (Some 0%nat) ∧
  second.1 = Returned (Some 1%nat) ∧
  second.1 ≠ first.1 ∧
  Cache.invoked first.2 = ["A"] ∧
  Cache.invoked second.2 = ["A"; "A"].
Proof. vm_compute. repeat split; try reflexivity. discriminate. Qed.

(** * The theorems at concrete inputs *)

(** While the first call on ["A"] is inside [fn], a second call on ["A"]
    throws and leaves the cache as it is. *)
Lemma reentrant_call_throws_witness :
  Cache.call settings2 "A" (FnPromise (Err:=string)) inside_first_call
  = (Threw (RecursionError recursion_message), inside_first_call).
Proof.
  apply (reentrant_call_throws settings2 "A" FnPromise inside_first_call 0%nat
           (Cache.EntryState.mk "A" StateNull None true false));
    vm_compute; reflexivity.
Defined.

(** The first promise rejects: entry ["A"] is detached. *)
Lemma rejection_detaches_entry_witness :
  ∃ s', Cache.settle settings2 0%nat (Rejects "boom") after_first_call
          = Some (Rejected "boom", s') ∧
        Cache.entriesByHash s' !! "A" = None ∧
        Cache.invoked (Cache.call (Err:=string) settings2 "A" FnPromise s').2
          = "A" :: Cache.invoked s'.
Proof.
  destruct (rejection_detaches_entry settings2 0%nat 0%nat "A" first_entry
              "boom" after_first_call) as (s' & Hsettle & Hgone & _ & Hnext).
  - vm_compute; reflexivity.
  - vm_compute; reflexivity.
  - reflexivity.
  - vm_compute; lia.
  - exists s'. split; [exact Hsettle|]. split; [exact Hgone|].
    apply (Hnext "A" FnPromise). reflexivity.
Defined.

(** A second call on fingerprint ["A"] with state [2] after a first one
    with state [1]. *)
Lemma state_change_reinvokes_witness :
  let s := (Cache.call (Err:=string) versioned ("A", 1) FnPromise Cache.init).2 in
  Cache.invoked (Cache.call (Err:=string) versioned ("A", 2) FnPromise s).2
    = ("A", 2) :: Cache.invoked s ∧
  Cache.EntryState.paramState <$>
    Cache.objs (Cache.call (Err:=string) versioned ("A", 2) FnPromise s).2 !! 0%nat
    = Some (StateNumber 2).
Proof.
  intros s.
  destruct (state_change_reinvokes versioned ("A", 2) (FnPromise (Err:=string)) s
              0%nat (Cache.EntryState.mk "A" (StateNumber 1) (Some 0%nat) false false))
    as (Hinv & Hstate & _).
  - vm_compute; reflexivity.
  - vm_compute; reflexivity.
  - reflexivity.
  - vm_compute; reflexivity.
  - vm_compute; discriminate.
  - split; [exact Hinv|exact Hstate].
Defined.

(** A second call on ["A"] after the first promise has resolved. *)
Lemma reuse_requires_resolution_witness :
  (Cache.call (Err:=string) settings2 "A" FnPromise after_first_resolved).1
  = Returned (Some 0%nat).
Proof.
  destruct (reuse_requires_resolution (Err:=string) settings2 "A" after_first_resolved
              0%nat (Cache.EntryState.mk "A" StateNull (Some 0%nat) false true))
    as [Hreuse _].
  - vm_compute; reflexivity.
  - vm_compute; reflexivity.
  - reflexivity.
  - vm_compute; reflexivity.
  - vm_compute; discriminate.
  - apply (Hreuse eq_refl FnPromise).
Defined.

(** The first promise resolves under a [shouldCache] that refuses it. *)
Lemma uncacheable_result_detaches_witness :
  let s := (Cache.call (Err:=string) refusing "A" FnPromise Cache.init).2 in
  ∃ out s', Cache.settle (Err:=string) refusing 0%nat (Resolves 7%nat) s
              = Some (out, s') ∧
            Cache.entriesByHash s' !! "A" = None.
Proof.
  intros s.
  destruct (uncacheable_result_detaches (Err:=string) refusing 0%nat 0%nat "A"
              7%nat s) as (out & s' & Hsettle & _ & Hcur).
  - vm_compute; reflexivity.
  - exists out, s'. split; [exact Hsettle|].
    destruct (Hcur first_entry) as (_ & _ & Hdet).
    + vm_compute; reflexivity.
    + reflexivity.
    + destruct (Hdet (fun _ _ => false)) as [Hgone _]; [reflexivity..|].
      exact Hgone.
Defined.

(** The first call of a cache with [maxEntries: 0]. *)
Lemma creation_evicts_tail_witness :
  (Cache.call (Err:=string) settings0 "A" FnPromise Cache.init).1
    = Returned (Some 0%nat) ∧
  Cache.entriesByHash (Cache.call (Err:=string) settings0 "A" FnPromise Cache.init).2
    = ∅.
Proof.
  destruct (creation_evicts_tail (Err:=string) settings0 "A" Cache.init)
    as (mid & _ & Hret & _ & _ & _ & Hzero & _).
  - vm_compute; reflexivity.
  - split; [exact Hret|].
    destruct Hzero as (_ & _ & Htable); [reflexivity|done|exact Htable].
Defined.

(** The first promise is superseded by a second call, then resolves. *)
Lemma superseded_promise_yields_undefined_witness :
  let s := (Cache.call (Err:=string) settings2 "A" FnPromise after_first_call).2 in
  Cache.settle (Err:=string) settings2 0%nat (Resolves 5%nat) s
  = Some (Fulfilled None, Cache.taken 0%nat s).
Proof.
  intros s.
  destruct (superseded_promise_yields_undefined (Err:=string) settings2 0%nat 0%nat
              "A" "A" 5%nat first_entry after_first_call) as [_ Hundef].
  - vm_compute; reflexivity.
  - vm_compute; reflexivity.
  - vm_compute; reflexivity.
  - reflexivity.
  - reflexivity.
  - vm_compute; reflexivity.
  - vm_compute; lia.
  - exact Hundef.
Defined.

(** * Further properties of the recency list *)

Section LinkedListProperties.
Import LinkedList.

Lemma two_items_well_linked : well_linked two_items two_items_order.
Proof.
  apply (insertAtHead_unlinked 1%nat (insertAtHead 0%nat LinkedList.empty)
           [(0%nat, 0%nat)]); [|reflexivity].
  apply (insertAtHead_unlinked 0%nat LinkedList.empty []);
    [apply well_linked_empty|reflexivity].
Qed.

(** X2: inserting an item that is not linked into a well-linked list puts
    it in front of the others, whose order is kept; the item is then
    linked, the length has grown by one, and the tail is the one there was,
    or the item itself when the list was empty. *)
Theorem insertAtHead_new_item (x : Ref) (l : LinkedList.t)
    (nl : list (Ref * Ref)) :
  well_linked l nl →
  ¬ linked x l →
  well_linked (insertAtHead x l) ((fresh l, x) :: nl) ∧
  linked x (insertAtHead x l) ∧
  LinkedList.length (insertAtHead x l) = LinkedList.length l + 1 ∧
  tail (insertAtHead x l) = Some (default x (tail l)).
Proof.
  intros Hwl Hx. apply eq_None_not_Some in Hx.
  pose proof (insertAtHead_unlinked x l nl Hwl Hx) as Hwl'.
  split; [exact Hwl'|]. split; [|split].
  - exists (fresh l). apply Hwl'. by left.
  - unfold LinkedList.length.
    destruct Hwl as (_ & _ & _ & -> & _). destruct Hwl' as (_ & _ & _ & -> & _).
    cbn [List.length]. lia.
  - rewrite (well_linked_tail _ _ Hwl'), (well_linked_tail _ _ Hwl).
    destruct nl as [|p rest]; [reflexivity|].
    rewrite last_cons_cons.
    destruct (last (p :: rest)) as [q|] eqn:Hl; [reflexivity|].
    by apply last_None in Hl.
Qed.

(** X3: removing a linked item from a well-linked list takes it out and
    keeps the others in their order, whether it was the head, the tail or
    in between; the length drops by one. *)
Theorem remove_linked_item (l : LinkedList.t) (pre post : list (Ref * Ref))
    (n x : Ref) :
  well_linked l (pre ++ (n, x) :: post) →
  well_linked (remove x l) (pre ++ post) ∧
  ¬ linked x (remove x l) ∧
  LinkedList.length (remove x l) = LinkedList.length l - 1.
Proof.
  intros Hwl. pose proof (remove_well_linked l pre post n x Hwl) as Hwl'.
  split; [exact Hwl'|]. split; [apply remove_not_linked|].
  unfold LinkedList.length.
  destruct Hwl as (_ & _ & _ & -> & _). destruct Hwl' as (_ & _ & _ & -> & _).
  rewrite !length_app. cbn [List.length]. lia.
Qed.

(** X4: the [tail] getter of a well-linked list answers the item linked
    the longest ago, and answers nothing exactly when no item is linked. *)
Theorem tail_is_last (l : LinkedList.t) (nl : list (Ref * Ref)) :
  well_linked l nl →
  tail l = snd <$> last nl ∧ (tail l = None ↔ nl = []).
Proof.
  intros Hwl. pose proof (well_linked_tail l nl Hwl) as Htail.
  split; [exact Htail|]. rewrite Htail.
  destruct (last nl) as [q|] eqn:Hl; cbn.
  - split; [discriminate|]. intros ->. discriminate.
  - split; [|done]. intros _. by apply last_None.
Qed.

Lemma remove_insertAtHead (x : Ref) (l : LinkedList.t) (nl : list (Ref * Ref)) :
  well_linked l nl →
  _lookup l !! x = None →
  well_linked (remove x (insertAtHead x l)) nl.
Proof.
  intros Hwl Hx.
  pose proof (insertAtHead_unlinked x l nl Hwl Hx) as Hwl'.
  exact (remove_well_linked _ [] nl _ _ Hwl').
Qed.

Lemma linked_insertAtHead_ne (x y : Ref) (l : LinkedList.t) :
  y ≠ x → (linked y (insertAtHead x l) ↔ linked y l).
Proof.
  intros Hne. unfold linked, insertAtHead.
  destruct (_lookup l !! x) as [n|].
  - destruct (_head (_remove n l)); cbn; by rewrite lookup__remove.
  - destruct (_head l); cbn; by rewrite lookup_insert_ne.
Qed.

(** X5: inserting an item that is not linked and removing it again gives
    back a well-linked list with the order, the length and the tail it
    had. *)
Theorem insert_then_remove (x : Ref) (l : LinkedList.t) (nl : list (Ref * Ref)) :
  well_linked l nl →
  ¬ linked x l →
  well_linked (remove x (insertAtHead x l)) nl ∧
  LinkedList.length (remove x (insertAtHead x l)) = LinkedList.length l ∧
  tail (remove x (insertAtHead x l)) = tail l.
Proof.
  intros Hwl Hx. apply eq_None_not_Some in Hx.
  pose proof (remove_insertAtHead x l nl Hwl Hx) as Hwl''.
  split; [exact Hwl''|]. split.
  - unfold LinkedList.length.
    destruct Hwl as (_ & _ & _ & -> & _). by destruct Hwl'' as (_ & _ & _ & -> & _).
  - by rewrite (well_linked_tail _ _ Hwl''), (well_linked_tail _ _ Hwl).
Qed.

(** X6: inserting again the only item of a well-linked list leaves the
    list well linked, with that item as head and tail. *)
Theorem insertAtHead_sole_item (l : LinkedList.t) (n x : Ref) :
  well_linked l [(n, x)] →
  well_linked (insertAtHead x l) [(n, x)] ∧
  tail (insertAtHead x l) = Some x.
Proof.
  intros Hwl.
  assert (Hgoal : well_linked (insertAtHead x l) [(n, x)]).
  { destruct (_remove_well_linked l [] [] n x Hwl)
      as (_ & Hhead & Htail & Hlen & Hfr & Hn).
    destruct Hwl as (_ & _ & _ & _ & Hnd & Hfresh & Hlk).
    assert (Hx : _lookup l !! x = Some n) by (apply Hlk; by left).
    unfold insertAtHead. rewrite Hx, Hhead. cbn [app first_node].
    unfold set_tail, set_head, set_length. simpl.
    refine (conj _ (conj _ (conj _ (conj _ (conj _ (conj _ _)))))).
    - split; [exact Hn|exact I].
    - reflexivity.
    - reflexivity.
    - rewrite Hlen. reflexivity.
    - exact Hnd.
    - rewrite Hfr. exact Hfresh.
    - intros y m. rewrite lookup__remove. apply Hlk. }
  split; [exact Hgoal|].
  by rewrite (well_linked_tail _ _ Hgoal).
Qed.

(** X7: inserting again an item of a well-linked list that holds two items
    or more makes its node the head but leaves the node with neither
    [closer] nor [further], while the length stays what it was: the list is
    no longer well linked, in any order. *)
Theorem insertAtHead_linked_item (x : Ref) (l : LinkedList.t)
    (nl : list (Ref * Ref)) :
  well_linked l nl →
  linked x l →
  (2 ≤ List.length nl)%nat →
  (∃ n, _head (insertAtHead x l) = Some n ∧
        nodes (insertAtHead x l) !! n = Some (mkItem x None None)) ∧
  LinkedList.length (insertAtHead x l) = LinkedList.length l ∧
  ∀ nl', ¬ well_linked (insertAtHead x l) nl'.
Proof.
  intros Hwl Hx Hlen.
  destruct (insertAtHead_linked x l nl Hwl Hx) as (n & Hhead & Hn & Hlen').
  split; [by exists n|]. split; [exact Hlen'|].
  by apply (insertAtHead_linked_breaks x l nl).
Qed.

(** X8: in a well-linked list [length] is the number of linked items. *)
Theorem length_counts_linked (l : LinkedList.t) (nl : list (Ref * Ref)) :
  well_linked l nl →
  LinkedList.length l = Z.of_nat (size (_lookup l)).
Proof.
  intros (_ & _ & _ & Hlen & Hnd & _ & Hlk). unfold LinkedList.length.
  rewrite Hlen. f_equal.
  set (sw := (fun p : Ref * Ref => (p.2, p.1)) <$> nl).
  assert (Hsw : ∀ y m, (y, m) ∈ sw ↔ (m, y) ∈ nl).
  { intros y m. unfold sw. rewrite list_elem_of_fmap. split.
    - intros ([m' y'] & [= -> ->] & Hin). exact Hin.
    - intros Hin. by exists (m, y). }
  assert (Hkeys : NoDup sw.*1).
  { apply NoDup_fmap_fst.
    - intros y m1 m2 H1%Hsw%Hlk H2%Hsw%Hlk. congruence.
    - apply NoDup_fmap_2; [|by apply NoDup_fmap_1 in Hnd].
      intros [a b] [c d] [= -> ->]. reflexivity. }
  assert (Heq : _lookup l = list_to_map sw).
  { apply map_eq. intros y. apply option_eq. intros m.
    rewrite Hlk, <- Hsw. by apply elem_of_list_to_map. }
  rewrite Heq, map_size_list_to_map by exact Hkeys.
  unfold sw. by rewrite length_fmap.
Qed.

End LinkedListProperties.

Lemma insertAtHead_new_item_witness :
  LinkedList.well_linked (LinkedList.insertAtHead 2%nat two_items)
    ((2%nat, 2%nat) :: two_items_order) ∧
  LinkedList.tail (LinkedList.insertAtHead 2%nat two_items) = Some 0%nat.
Proof.
  destruct (insertAtHead_new_item 2%nat two_items two_items_order)
    as (Hwl & _ & _ & Htail).
  - exact two_items_well_linked.
  - vm_compute. intros [n Hn]. discriminate.
  - split; [exact Hwl|exact Htail].
Defined.

Lemma remove_linked_item_witness :
  LinkedList.well_linked (LinkedList.remove 1%nat two_items) [(0%nat, 0%nat)] ∧
  LinkedList.length (LinkedList.remove 1%nat two_items) = 1.
Proof.
  destruct (remove_linked_item two_items [] [(0%nat, 0%nat)] 1%nat 1%nat)
    as (Hwl & _ & Hlen).
  - exact two_items_well_linked.
  - split; [exact Hwl|exact Hlen].
Defined.

Lemma tail_is_last_witness : LinkedList.tail two_items = Some 0%nat.
Proof.
  destruct (tail_is_last two_items two_items_order two_items_well_linked)
    as [Htail _].
  exact Htail.
Defined.

Lemma insert_then_remove_witness :
  LinkedList.well_linked
    (LinkedList.remove 2%nat (LinkedList.insertAtHead 2%nat two_items))
    two_items_order.
Proof.
  destruct (insert_then_remove 2%nat two_items two_items_order) as (Hwl & _).
  - exact two_items_well_linked.
  - vm_compute. intros [n Hn]. discriminate.
  - exact Hwl.
Defined.

Lemma insertAtHead_sole_item_witness :
  let l := LinkedList.insertAtHead 0%nat LinkedList.empty in
  LinkedList.well_linked (LinkedList.insertAtHead 0%nat l) [(0%nat, 0%nat)].
Proof.
  intros l.
  destruct (insertAtHead_sole_item l 0%nat 0%nat) as [Hwl _].
  - apply (insertAtHead_unlinked 0%nat LinkedList.empty []);
      [apply well_linked_empty|reflexivity].
  - exact Hwl.
Defined.

Lemma insertAtHead_linked_item_witness :
  LinkedList.length (LinkedList.insertAtHead 0%nat two_items) = 2 ∧
  ¬ LinkedList.well_linked (LinkedList.insertAtHead 0%nat two_items)
      [(0%nat, 0%nat); (1%nat, 1%nat)].
Proof.
  destruct (insertAtHead_linked_item 0%nat two_items two_items_order)
    as (_ & Hlen & Hbroken).
  - exact two_items_well_linked.
  - vm_compute. by eexists.
  - vm_compute. lia.
  - split; [exact Hlen|apply Hbroken].
Defined.

Lemma length_counts_linked_witness :
  LinkedList.length two_items = Z.of_nat (size (LinkedList._lookup two_items)).
Proof.
  exact (length_counts_linked two_items two_items_order two_items_well_linked).
Defined.

(** * Further properties of [Cache.ts] *)

Section CacheProperties.
Import Cache.
Context {Param Return Err : Type}.
Variable cacheSettings : CacheSettings Param Return.

Abbreviation call' := (Cache.call (Err:=Err) cacheSettings).
Abbreviation settle' := (Cache.settle (Err:=Err) cacheSettings).

Lemma detach_nextObj_le (e : Ref) (s : State Param) :
  nextObj (detach e s) = nextObj s.
Proof. unfold detach. cbn. destruct (objs s !! e); reflexivity. Qed.

Lemma creation_sync_failure_result (param : Param) (error : Err)
    (s : State Param) :
  entriesByHash s !! paramHasher cacheSettings param = None →
  (call' param (FnThrow error) s).1 = Threw (FnError error).
Proof.
  intros Hnone. unfold Cache.call, call_enter. by rewrite Hnone.
Qed.

(** X10: when [fn] raises on the call that creates an entry, the call
    throws the same error, [fn] has been invoked, and the entry created is
    detached again: the table is what it was, the entry is not linked, and
    a well-linked list is well linked in its order as before. *)
Theorem creation_sync_failure (param : Param) (error : Err) (s : State Param) :
  entriesByHash s !! paramHasher cacheSettings param = None →
  (call' param (FnThrow error) s).1 = Threw (FnError error) ∧
  invoked (call' param (FnThrow error) s).2 = param :: invoked s ∧
  entriesByHash (call' param (FnThrow error) s).2 = entriesByHash s ∧
  ¬ LinkedList.linked (nextObj s)
      (entriesByAccess (call' param (FnThrow error) s).2) ∧
  (∀ nl, LinkedList.well_linked (entriesByAccess s) nl →
         ¬ LinkedList.linked (nextObj s) (entriesByAccess s) →
         LinkedList.well_linked
           (entriesByAccess (call' param (FnThrow error) s).2) nl).
Proof.
  intros Hnone. unfold Cache.call, call_enter. rewrite Hnone.
  cbn [call_leave invoke_leave fst snd].
  split; [reflexivity|]. split; [by rewrite detach_invoked|].
  unfold detach. cbn. rewrite !lookup_alter_eq, lookup_insert_eq. cbn.
  split; [by apply delete_insert_id|].
  split; [apply remove_not_linked|].
  intros nl Hwl Hnew. apply eq_None_not_Some in Hnew.
  by apply remove_insertAtHead.
Qed.

Lemma detach_byAccess (e : Ref) (s : State Param) :
  entriesByAccess (detach e s) = LinkedList.remove e (entriesByAccess s).
Proof. unfold detach. cbn. destruct (objs s !! e); reflexivity. Qed.

(** X11: when [fn] raises on the re-invocation of a tracked entry, the call
    throws the same error and the entry is detached: its fingerprint leaves
    the table and [remove] is applied to the list, so that the entry is no
    longer a key of the lookup and, when the list is well linked, it leaves
    the order, the others keep theirs and the length drops by one.  The
    entry object keeps the new state and the old promise, and its
    [isBeingUsed] flag stays set. *)
Theorem reinvocation_sync_failure (param : Param) (error : Err)
    (s : State Param) (e : Ref) (ent : EntryState.t) :
  entriesByHash s !! paramHasher cacheSettings param = Some e →
  objs s !! e = Some ent →
  EntryState.isBeingUsed ent = false →
  compareCallState (paramState cacheSettings param) (EntryState.paramState ent)
    && EntryState.isResolved ent = false →
  (call' param (FnThrow error) s).1 = Threw (FnError error) ∧
  invoked (call' param (FnThrow error) s).2 = param :: invoked s ∧
  entriesByHash (call' param (FnThrow error) s).2
    = delete (EntryState.paramHash ent) (entriesByHash s) ∧
  ¬ LinkedList.linked e (entriesByAccess (call' param (FnThrow error) s).2) ∧
  (∀ pre n post,
     LinkedList.well_linked (entriesByAccess s) (pre ++ (n, e) :: post) →
     LinkedList.well_linked
       (entriesByAccess (call' param (FnThrow error) s).2) (pre ++ post) ∧
     LinkedList.length (entriesByAccess (call' param (FnThrow error) s).2)
       = LinkedList.length (entriesByAccess s) - 1) ∧
  objs (call' param (FnThrow error) s).2 !! e
    = Some (EntryState.mk (EntryState.paramHash ent)
              (paramState cacheSettings param) (EntryState.cache ent) true false).
Proof.
  intros Hhash Hobj Hused Hno. unfold Cache.call, call_enter.
  rewrite Hhash, Hobj. cbn. rewrite Hused, Hno. cbn.
  split; [reflexivity|]. split; [by rewrite detach_invoked|].
  set (s1 := invoke_enter e param
               (assign_paramState e (paramState cacheSettings param) s)).
  assert (Hobj1 : objs s1 !! e
            = Some (EntryState.mk (EntryState.paramHash ent)
                      (paramState cacheSettings param) (EntryState.cache ent)
                      true false)).
  { subst s1. cbn. rewrite !lookup_alter_eq, Hobj. reflexivity. }
  split; [by rewrite (detach_byHash e _ s1 Hobj1)|].
  split; [apply detach_not_linked|]. split; [|by rewrite detach_objs].
  intros pre n post Hwl. rewrite detach_byAccess.
  change (entriesByAccess s1) with (entriesByAccess s).
  pose proof (remove_well_linked _ pre post n e Hwl) as Hwl'.
  split; [exact Hwl'|]. unfold LinkedList.length.
  destruct Hwl as (_ & _ & _ & -> & _). destruct Hwl' as (_ & _ & _ & -> & _).
  rewrite !length_app. cbn [List.length]. lia.
Qed.

(** X12: once the promise an entry holds has resolved with a result that
    [shouldCache] accepts (or no [shouldCache] is configured), table and
    list are as they were, and a call with a strictly equal state returns
    that very promise without invoking [fn]. *)
Theorem resolved_result_is_reused (promise e : Ref) (param0 param : Param)
    (result : Return) (ent : EntryState.t) (s : State Param) :
  callbacks s !! promise = Some (e, param0) →
  entriesByHash s !! paramHasher cacheSettings param = Some e →
  objs s !! e = Some ent →
  EntryState.cache ent = Some promise →
  EntryState.isBeingUsed ent = false →
  compareCallState (paramState cacheSettings param) (EntryState.paramState ent)
    = true →
  (∀ f, shouldCache cacheSettings = Some f → f result param0 = true) →
  ∃ s1,
    settle' promise (Resolves result) s = Some (Fulfilled (Some result), s1) ∧
    entriesByHash s1 = entriesByHash s ∧
    entriesByAccess s1 = entriesByAccess s ∧
    ∀ r, (call' param r s1).1 = Returned (Some promise) ∧
         invoked (call' param r s1).2 = invoked s.
Proof.
  intros Hcb Hhash Hobj Hcache Hused Hsame Hok.
  exists (assign_isResolved e true (taken promise s)).
  split.
  { unfold Cache.settle. rewrite Hcb.
    rewrite bool_decide_eq_true_2
      by (unfold cache_of; cbn; by rewrite Hobj).
    destruct (shouldCache cacheSettings) as [f|]; [|reflexivity].
    by rewrite (Hok f eq_refl). }
  split; [reflexivity|]. split; [reflexivity|]. intros r.
  rewrite (call_reuse (Err:=Err) cacheSettings param r _ e
             (EntryState.mk (EntryState.paramHash ent) (EntryState.paramState ent)
                (EntryState.cache ent) (EntryState.isBeingUsed ent) true)).
  - cbn. by rewrite Hcache.
  - exact Hhash.
  - cbn. by rewrite lookup_alter_eq, Hobj.
  - exact Hused.
  - cbn. by rewrite Hsame.
Qed.

(** X13: with a state that is [NaN], which is not strictly equal to
    itself, a tracked entry is never reused: every call on its fingerprint
    invokes [fn] again, resolved or not. *)
Theorem nan_state_never_reused (param : Param) (s : State Param) (e : Ref)
    (ent : EntryState.t) :
  entriesByHash s !! paramHasher cacheSettings param = Some e →
  objs s !! e = Some ent →
  EntryState.isBeingUsed ent = false →
  paramState cacheSettings param = StateNaN →
  (∀ r, invoked (call' param r s).2 = param :: invoked s) ∧
  (call' param FnPromise s).1 = Returned (Some (nextPromise s)).
Proof.
  intros Hhash Hobj Hused Hnan.
  destruct (call_reinvoke (Err:=Err) cacheSettings param s e ent Hhash Hobj Hused)
    as (Hall & _ & Hret & _).
  - by rewrite Hnan.
  - split; [|exact Hret]. intros r. apply (Hall r).
Qed.

(** X14: when the promise an entry held has been replaced by a later
    invocation and the computation behind the old promise then rejects, the
    old promise rejects with the error, but the entry stays in the table
    with its new promise. *)
Theorem superseded_rejection_spares_entry (promise e : Ref)
    (param0 param : Param) (error : Err) (ent : EntryState.t)
    (s : State Param) :
  callbacks s !! promise = Some (e, param0) →
  entriesByHash s !! paramHasher cacheSettings param = Some e →
  objs s !! e = Some ent →
  EntryState.cache ent = Some promise →
  EntryState.isBeingUsed ent = false →
  compareCallState (paramState cacheSettings param) (EntryState.paramState ent)
    && EntryState.isResolved ent = false →
  (promise < nextPromise s)%nat →
  ∃ s2,
    settle' promise (Rejects error) (call' param FnPromise s).2
      = Some (Rejected error, s2) ∧
    entriesByHash s2 !! paramHasher cacheSettings param = Some e ∧
    entriesByAccess s2 = entriesByAccess (call' param FnPromise s).2 ∧
    cache_of e s2 = Some (nextPromise s).
Proof.
  intros Hcb Hhash Hobj Hcache Hused Hno Hlt.
  destruct (call_reinvoke (Err:=Err) cacheSettings param s e ent Hhash Hobj Hused Hno)
    as (_ & _ & _ & Hobj' & Hcbs & Htable & _).
  exists (taken promise (call' param FnPromise s).2). split.
  { unfold Cache.settle. rewrite Hcbs, lookup_insert_ne by lia. rewrite Hcb.
    rewrite bool_decide_eq_false_2; [reflexivity|].
    unfold cache_of. cbn. rewrite Hobj'. cbn. intros [=]. lia. }
  split; [cbn; by rewrite Htable|]. split; [reflexivity|].
  unfold cache_of. cbn. by rewrite Hobj'.
Qed.

(** X15: the completion of an entry that was evicted deletes from the table
    whatever is filed under its fingerprint.  When the computation of an
    entry that is no longer linked rejects while another entry is tracked
    under the same fingerprint, that other entry loses its place in the
    table although the list is left as it is. *)
Theorem evicted_rejection_unfiles_successor (promise e e' : Ref) (param : Param)
    (error : Err) (ent : EntryState.t) (s : State Param) :
  callbacks s !! promise = Some (e, param) →
  objs s !! e = Some ent →
  EntryState.cache ent = Some promise →
  ¬ LinkedList.linked e (entriesByAccess s) →
  entriesByHash s !! EntryState.paramHash ent = Some e' →
  e' ≠ e →
  ∃ s1,
    settle' promise (Rejects error) s = Some (Rejected error, s1) ∧
    entriesByHash s1 !! EntryState.paramHash ent = None ∧
    entriesByAccess s1 = entriesByAccess s ∧
    objs s1 = objs s.
Proof.
  intros Hcb Hobj Hcache Hun Hsucc _.
  exists (detach e (taken promise s)). split.
  { unfold Cache.settle. rewrite Hcb.
    by rewrite bool_decide_eq_true_2
      by (unfold cache_of; cbn; by rewrite Hobj). }
  split.
  { rewrite (detach_byHash e ent) by exact Hobj. apply lookup_delete_eq. }
  split; [|by rewrite detach_objs].
  apply eq_None_not_Some in Hun.
  unfold detach. cbn. rewrite Hobj. cbn. unfold LinkedList.remove.
  by rewrite Hun.
Qed.


(** ** What holds between calls *)

Lemma init_at_rest : at_rest (Param:=Param) init.
Proof. intros h e He. cbn in He. by rewrite lookup_empty in He. Qed.

(** Dropping fingerprints from the table and changing fields other than
    the ones [at_rest] speaks of keeps a cache at rest. *)
Lemma at_rest_shrink (s s' : State Param) :
  at_rest s →
  (nextObj s ≤ nextObj s')%nat →
  (∀ h e, entriesByHash s' !! h = Some e → entriesByHash s !! h = Some e) →
  (∀ h e ent, entriesByHash s' !! h = Some e → objs s !! e = Some ent →
     EntryState.paramHash ent = h →
     ∃ ent', objs s' !! e = Some ent' ∧
             EntryState.paramHash ent' = h ∧
             EntryState.isBeingUsed ent' = false ∧
             is_Some (EntryState.cache ent')) →
  at_rest s'.
Proof.
  intros Hs Hle Hsub Hobjs h e He.
  destruct (Hs h e (Hsub h e He)) as (Hlt & ent & Hobj & Hph & _ & _).
  split; [lia|]. exact (Hobjs h e ent He Hobj Hph).
Qed.

Lemma detach_at_rest (e : Ref) (s : State Param) :
  at_rest s → at_rest (detach e s).
Proof.
  intros Hs. apply (at_rest_shrink s); [exact Hs|..].
  - unfold detach. cbn. destruct (objs s !! e); reflexivity.
  - intros h e' He'. unfold detach in He'. cbn in He'.
    destruct (objs s !! e); cbn in He'; [|exact He'].
    by apply lookup_delete_Some in He' as [_ ?].
  - intros h e' ent He' Hobj Hph. rewrite detach_objs.
    unfold detach in He'. cbn in He'.
    assert (Hin : entriesByHash s !! h = Some e').
    { destruct (objs s !! e); cbn in He'; [|exact He'].
      by apply lookup_delete_Some in He' as [_ ?]. }
    destruct (Hs h e' Hin) as (_ & ent' & Hobj' & ? & ? & ?).
    exists ent'. by rewrite Hobj'.
Qed.

Lemma settle_at_rest (promise : Ref) (o : Settlement Return Err)
    (s : State Param) :
  at_rest s →
  match settle' promise o s with
  | Some (_, s1) => at_rest s1
  | None => True
  end.
Proof.
  intros Hs. unfold Cache.settle.
  destruct (callbacks s !! promise) as [[e param]|]; [|exact I].
  assert (Ht : at_rest (taken promise s)) by exact Hs.
  assert (Hr : at_rest (assign_isResolved e true (taken promise s))).
  { apply (at_rest_shrink s); [exact Hs|reflexivity|done|].
    intros h e' ent He' Hobj Hph. cbn in He'.
    destruct (Hs h e' He') as (_ & ent' & Hobj' & ? & ? & ?).
    cbn. destruct (decide (e = e')) as [->|Hne].
    - rewrite lookup_alter_eq, Hobj'. cbn. eexists. split; [reflexivity|]. done.
    - rewrite lookup_alter_ne by exact Hne. by exists ent'. }
  destruct o as [result|error]; destruct (bool_decide _); try exact Ht.
  - destruct (shouldCache cacheSettings) as [f|]; [|exact Hr].
    destruct (negb _); [by apply detach_at_rest|exact Hr].
  - by apply detach_at_rest.
Qed.

Lemma call_at_rest (param : Param) (r : FnResult Err) (s : State Param) :
  at_rest s → at_rest (call' param r s).2.
Proof.
  intros Hs. unfold Cache.call, call_enter.
  destruct (entriesByHash s !! paramHasher cacheSettings param) as [e|] eqn:Hhash.
  - destruct (Hs _ _ Hhash) as (Hlt & ent & Hobj & Hph & Hused & Hcache).
    rewrite Hobj. cbn. rewrite Hused.
    destruct (_ && _); cbn; [exact Hs|].
    destruct r as [|error]; cbn.
    + apply (at_rest_shrink s); [exact Hs|reflexivity|done|].
      intros h e' ent0 He' Hobj0 Hph0. cbn in He'. cbn.
      destruct (Hs h e' He') as (_ & ent' & Hobj' & ? & ? & ?).
      destruct (decide (e = e')) as [<-|Hne].
      * rewrite !lookup_alter_eq, Hobj'. cbn. eexists. split; [reflexivity|].
        done.
      * rewrite !lookup_alter_ne by exact Hne. by exists ent'.
    + set (s1 := invoke_enter e param
                   (assign_paramState e (paramState cacheSettings param) s)).
      assert (Hobj1 : objs s1 !! e
                = Some (EntryState.mk (EntryState.paramHash ent)
                          (paramState cacheSettings param) (EntryState.cache ent)
                          true false)).
      { subst s1. cbn. rewrite !lookup_alter_eq, Hobj. reflexivity. }
      apply (at_rest_shrink s); [exact Hs|..].
      * rewrite detach_nextObj_le. reflexivity.
      * intros h e' He'. rewrite (detach_byHash e _ s1 Hobj1) in He'.
        by apply lookup_delete_Some in He' as [_ ?].
      * intros h e' ent0 He' Hobj0 Hph0.
        rewrite (detach_byHash e _ s1 Hobj1) in He'. cbn in He'.
        apply lookup_delete_Some in He' as [Hneq He'].
        destruct (Hs h e' He') as (_ & ent' & Hobj' & ? & ? & ?).
        rewrite detach_objs. subst s1. cbn.
        assert (Hne : e ≠ e').
        { intros ->. rewrite Hobj in Hobj'. injection Hobj' as <-. congruence. }
        rewrite !lookup_alter_ne by exact Hne. by exists ent'.
  - set (e := nextObj s).
    set (hash := paramHasher cacheSettings param) in *.
    assert (Hold : ∀ h e', entriesByHash s !! h = Some e' → e ≠ e').
    { intros h e' He'. destruct (Hs h e' He') as [Hlt _]. subst e. lia. }
    destruct r as [|error]; cbn.
    + assert (Hnew : ∀ (tbl : gmap string Ref) (l : LinkedList.t),
         (∀ h e', tbl !! h = Some e' → <[hash := e]> (entriesByHash s) !! h = Some e') →
         at_rest (mkState
           (alter (fun r => EntryState.mk (EntryState.paramHash r)
                (EntryState.paramState r) (EntryState.cache r) false
                (EntryState.isResolved r)) e
             (alter (fun r => EntryState.mk (EntryState.paramHash r)
                (EntryState.paramState r) (Some (nextPromise s))
                (EntryState.isBeingUsed r) (EntryState.isResolved r)) e
               (alter (fun r => EntryState.mk (EntryState.paramHash r)
                  (EntryState.paramState r) (EntryState.cache r)
                  (EntryState.isBeingUsed r) false) e
                 (alter (fun r => EntryState.mk (EntryState.paramHash r)
                    (EntryState.paramState r) (EntryState.cache r) true
                    (EntryState.isResolved r)) e
                   (<[e := EntryState.mk hash (paramState cacheSettings param)
                             None true false]> (objs s))))))
           (S e) tbl l
           (<[nextPromise s := (e, param)]> (callbacks s))
           (S (nextPromise s)) (param :: invoked s))).
      { intros tbl l Hsub h e' He'. cbn. apply Hsub in He'.
        destruct (decide (hash = h)) as [<-|Hneq].
        - rewrite lookup_insert_eq in He'. injection He' as <-.
          split; [lia|]. rewrite !lookup_alter_eq, lookup_insert_eq. cbn.
          eexists. split; [reflexivity|]. done.
        - rewrite lookup_insert_ne in He' by exact Hneq.
          destruct (Hs h e' He') as (Hlt & ent' & Hobj' & ? & ? & ?).
          split; [subst e; lia|].
          rewrite !lookup_alter_ne, lookup_insert_ne by (by apply (Hold h)).
          by exists ent'. }
      destruct (bool_decide _); [|by apply Hnew].
      destruct (LinkedList.tail _) as [tl|]; [|by apply Hnew].
      match goal with
      | |- context [match ?x with Some _ => _ | None => _ end] =>
        destruct x
      end; apply Hnew; cbn; try done.
      intros h e' He'. by apply lookup_delete_Some in He' as [_ ?].
    + unfold detach. cbn. rewrite !lookup_alter_eq, lookup_insert_eq. cbn.
      intros h e' He'. cbn in He'. cbn.
      apply lookup_delete_Some in He' as [Hneq He'].
      rewrite lookup_insert_ne in He' by exact Hneq.
      destruct (Hs h e' He') as (Hlt & ent' & Hobj' & ? & ? & ?).
      split; [subst e; lia|].
      rewrite !lookup_alter_ne, lookup_insert_ne by (by apply (Hold h)).
      by exists ent'.
Qed.

Lemma run_at_rest (evs : list (Event (Param:=Param) (Return:=Return) (Err:=Err)))
    (s : State Param) :
  at_rest s → at_rest (run cacheSettings evs s).
Proof.
  revert s. induction evs as [|ev evs IH]; intros s Hs; [exact Hs|].
  cbn. apply IH. destruct ev as [param r|promise o]; cbn.
  - by apply call_at_rest.
  - pose proof (settle_at_rest promise o s Hs) as H.
    destruct (settle' promise o s) as [[out s1]|]; [exact H|exact Hs].
Qed.

(** X17: in every history of settlements and of calls during which [fn]
    does not call the cached function back, no call throws the recursion
    error: a call returns a promise, never [null], or throws the error [fn]
    has just raised. *)
Theorem call_at_rest_outcome
    (evs : list (Event (Param:=Param) (Return:=Return) (Err:=Err)))
    (param : Param) (r : FnResult Err) :
  match (call' param r (run cacheSettings evs init)).1 with
  | Returned c => is_Some c
  | Threw (RecursionError _) => False
  | Threw (FnError error) => r = FnThrow error
  end.
Proof.
  pose proof (run_at_rest evs init init_at_rest) as Hs.
  set (s := run cacheSettings evs init) in *. clearbody s.
  destruct (entriesByHash s !! paramHasher cacheSettings param) as [e|] eqn:Hhash.
  - destruct (Hs _ _ Hhash) as (_ & ent & Hobj & _ & Hused & Hcache).
    destruct (compareCallState (paramState cacheSettings param)
                (EntryState.paramState ent) && EntryState.isResolved ent) eqn:Huse.
    + by rewrite (call_reuse (Err:=Err) cacheSettings param r s e ent).
    + destruct (call_reinvoke (Err:=Err) cacheSettings param s e ent
                  Hhash Hobj Hused Huse) as (_ & Hthrow & Hret & _).
      destruct r as [|error]; [by rewrite Hret|by rewrite Hthrow].
  - destruct r as [|error].
    + destruct (call_untracked cacheSettings param (FnPromise (Err:=Err)) s Hhash)
        as [_ Hret].
      by rewrite Hret.
    + by rewrite (creation_sync_failure_result param error s Hhash).
Qed.

(** ** Creation keeps table and list in agreement *)

Lemma well_linked_NoDup_items (l : LinkedList.t) (nl : list (Ref * Ref)) :
  LinkedList.well_linked l nl → NoDup nl.*2.
Proof.
  intros (_ & _ & _ & _ & Hnd & _ & Hlk).
  set (sw := (fun p : Ref * Ref => (p.2, p.1)) <$> nl).
  assert (Hsw : ∀ y m, (y, m) ∈ sw ↔ (m, y) ∈ nl).
  { intros y m. unfold sw. rewrite list_elem_of_fmap. split.
    - intros ([m' y'] & [= -> ->] & Hin). exact Hin.
    - intros Hin. by exists (m, y). }
  assert (Hkeys : NoDup sw.*1).
  { apply NoDup_fmap_fst.
    - intros y m1 m2 H1%Hsw%Hlk H2%Hsw%Hlk. congruence.
    - apply NoDup_fmap_2; [|by apply NoDup_fmap_1 in Hnd].
      intros [a b] [c d] [= -> ->]. reflexivity. }
  unfold sw in Hkeys. by rewrite <- list_fmap_compose in Hkeys.
Qed.

Lemma init_consistent :
  0 ≤ maxEntries cacheSettings → consistent cacheSettings (Param:=Param) init [].
Proof.
  intros Hmax. refine (conj well_linked_empty (conj _ (conj _ Hmax))); cbn.
  - intros h e. rewrite lookup_empty. split; [discriminate|].
    intros [Hin _]. by apply elem_of_nil in Hin.
  - intros e Hin. by apply elem_of_nil in Hin.
Qed.

(** X23: when table and list agree within the bound, a call that creates
    an entry leaves them in agreement within the bound: the new entry comes
    first in the order, and when the list would be longer than [maxEntries]
    the entry that was last in the order is the one that leaves both. *)
Theorem creation_keeps_consistency (param : Param) (s : State Param)
    (nl : list (Ref * Ref)) :
  consistent cacheSettings s nl →
  entriesByHash s !! paramHasher cacheSettings param = None →
  ∃ nl',
    consistent cacheSettings (call' param FnPromise s).2 nl' ∧
    ((LinkedList.fresh (entriesByAccess s), nextObj s) :: nl = nl' ∨
     ∃ n tl, (LinkedList.fresh (entriesByAccess s), nextObj s) :: nl
             = nl' ++ [(n, tl)] ∧
             Z.of_nat (List.length nl) = maxEntries cacheSettings).
Proof.
  intros (Hwl & Hagree & Hitems & Hbound) Hnone.
  set (e := nextObj s). set (hash := paramHasher cacheSettings param) in *.
  set (nl1 := (LinkedList.fresh (entriesByAccess s), e) :: nl).
  assert (Hlen : LinkedList.length (entriesByAccess s) = Z.of_nat (List.length nl))
    by (by destruct Hwl as (_ & _ & _ & ? & _)).
  assert (Hnew : LinkedList._lookup (entriesByAccess s) !! e = None).
  { destruct (LinkedList._lookup (entriesByAccess s) !! e) as [n|] eqn:Hn;
      [|reflexivity].
    assert (Hin : e ∈ nl.*2).
    { apply list_elem_of_fmap. exists (n, e). split; [reflexivity|].
      by apply Hwl. }
    destruct (Hitems e Hin) as [Hlt _]. subst e. lia. }
  pose proof (insertAtHead_unlinked e _ nl Hwl Hnew) as Hwl1.
  set (l1 := LinkedList.insertAtHead e (entriesByAccess s)) in *.
  assert (Hlen1 : LinkedList.length l1 = Z.of_nat (List.length nl) + 1).
  { destruct Hwl1 as (_ & _ & _ & Hl & _). unfold LinkedList.length.
    rewrite Hl. cbn [List.length]. lia. }
  set (objs1 :=
    alter (fun r => EntryState.mk (EntryState.paramHash r)
        (EntryState.paramState r) (EntryState.cache r) false
        (EntryState.isResolved r)) e
      (alter (fun r => EntryState.mk (EntryState.paramHash r)
          (EntryState.paramState r) (Some (nextPromise s))
          (EntryState.isBeingUsed r) (EntryState.isResolved r)) e
        (alter (fun r => EntryState.mk (EntryState.paramHash r)
            (EntryState.paramState r) (EntryState.cache r)
            (EntryState.isBeingUsed r) false) e
          (alter (fun r => EntryState.mk (EntryState.paramHash r)
              (EntryState.paramState r) (EntryState.cache r) true
              (EntryState.isResolved r)) e
            (<[e := EntryState.mk hash (paramState cacheSettings param)
                      None true false]> (objs s)))))).
  assert (Hobj_new : EntryState.paramHash <$> objs1 !! e = Some hash).
  { subst objs1. by rewrite !lookup_alter_eq, lookup_insert_eq. }
  assert (Hobj_old : ∀ e', e' ≠ e → objs1 !! e' = objs s !! e').
  { intros e' Hne. subst objs1.
    by rewrite !lookup_alter_ne, lookup_insert_ne by congruence. }
  assert (Hold : ∀ e', e' ∈ nl.*2 → e' ≠ e).
  { intros e' Hin ->. destruct (Hitems e Hin) as [Hlt _]. subst e. lia. }
  assert (Hagree1 : ∀ h e', <[hash := e]> (entriesByHash s) !! h = Some e' ↔
            e' ∈ nl1.*2 ∧ EntryState.paramHash <$> objs1 !! e' = Some h).
  { intros h e'. subst nl1. cbn [fmap list_fmap snd]. rewrite elem_of_cons. split.
    - destruct (decide (hash = h)) as [<-|Hneq].
      + rewrite lookup_insert_eq. intros [= <-]. split; [by left|exact Hobj_new].
      + rewrite lookup_insert_ne by exact Hneq. intros [Hin Hobj]%Hagree.
        split; [by right|]. by rewrite Hobj_old by (by apply Hold).
    - intros [[->|Hin] Hobj].
      + rewrite Hobj_new in Hobj. injection Hobj as <-. apply lookup_insert_eq.
      + rewrite Hobj_old in Hobj by (by apply Hold).
        assert (Hh : entriesByHash s !! h = Some e') by (by apply Hagree).
        rewrite lookup_insert_ne; [exact Hh|]. intros <-. congruence. }
  assert (Hitems1 : ∀ e', e' ∈ nl1.*2 → (e' < S e)%nat ∧ is_Some (objs1 !! e')).
  { intros e'. subst nl1. cbn [fmap list_fmap snd]. rewrite elem_of_cons.
    intros [->|Hin].
    - split; [lia|]. destruct (objs1 !! e); [by eexists|discriminate].
    - destruct (Hitems e' Hin) as [Hlt Hsome]. split; [subst e; lia|].
      by rewrite Hobj_old by (by apply Hold). }
  unfold Cache.call, call_enter. fold hash. rewrite Hnone. cbn.
  fold e. fold l1. fold objs1.
  destruct (decide (LinkedList.length l1 > maxEntries cacheSettings)) as [Hgt|Hle].
  - rewrite bool_decide_eq_true_2 by exact Hgt.
    destruct (exists_last (l:=nl1)) as (front & [n tl] & Hsplit);
      [discriminate|].
    assert (Htl : LinkedList.tail l1 = Some tl).
    { rewrite (well_linked_tail l1 _ Hwl1). fold nl1. by rewrite Hsplit, last_snoc. }
    rewrite Htl.
    assert (Hin_tl : tl ∈ nl1.*2).
    { rewrite Hsplit, fmap_app. apply elem_of_app. right. cbn. by left. }
    destruct (Hitems1 tl Hin_tl) as [_ [r Hr]]. rewrite Hr. cbn.
    pose proof (well_linked_NoDup_items l1 nl1 Hwl1) as Hnd.
    rewrite Hsplit, fmap_app in Hnd. cbn in Hnd.
    apply NoDup_app in Hnd as (_ & Hdisj & _).
    pose proof Hwl1 as Hwl1'. fold nl1 in Hwl1'. rewrite Hsplit in Hwl1'.
    pose proof (remove_well_linked l1 front [] n tl Hwl1') as Hrm.
    rewrite app_nil_r in Hrm.
    exists front. split; [|right; exists n, tl; split; [exact Hsplit|lia]].
    refine (conj Hrm (conj _ (conj _ _))); cbn.
    + intros h e'. rewrite lookup_delete_Some, Hagree1. split.
      * intros (Hneq & Hin & Hobj). split; [|exact Hobj].
        rewrite Hsplit, fmap_app in Hin. apply elem_of_app in Hin as [Hin|Hin];
          [exact Hin|].
        cbn in Hin. apply list_elem_of_singleton in Hin as ->.
        rewrite Hr in Hobj. cbn in Hobj. congruence.
      * intros [Hin Hobj]. split.
        -- intros <-. apply (Hdisj e' Hin). cbn.
           assert (H1 : <[hash := e]> (entriesByHash s) !! EntryState.paramHash r
                        = Some e') by (by apply Hagree1; rewrite Hsplit, fmap_app;
                          split; [apply elem_of_app; left|]).
           assert (H2 : <[hash := e]> (entriesByHash s) !! EntryState.paramHash r
                        = Some tl) by (apply Hagree1; split; [exact Hin_tl|];
                          by rewrite Hr).
           assert (e' = tl) as -> by congruence. by left.
        -- split; [|exact Hobj]. rewrite Hsplit, fmap_app.
           apply elem_of_app. by left.
    + intros e' Hin. apply Hitems1. rewrite Hsplit, fmap_app.
      apply elem_of_app. by left.
    + destruct Hrm as (_ & _ & _ & Hl & _). unfold LinkedList.length. rewrite Hl.
      assert (Hlens : List.length nl1 = S (List.length front)).
      { rewrite Hsplit, length_app. cbn. lia. }
      subst nl1. cbn [List.length] in Hlens. lia.
  - rewrite bool_decide_eq_false_2 by exact Hle.
    exists nl1. split; [|by left].
    refine (conj Hwl1 (conj Hagree1 (conj Hitems1 _))). cbn. lia.
Qed.

(** X18: after every history of settlements and of calls during which
    [fn] does not call the cached function back, every entry of the table
    is filed under its own fingerprint, is not in use and holds a promise;
    so no entry is filed under two fingerprints. *)
Theorem tracked_entries_at_rest
    (evs : list (Event (Param:=Param) (Return:=Return) (Err:=Err))) :
  (∀ h e, entriesByHash (run cacheSettings evs init) !! h = Some e →
     ∃ ent, objs (run cacheSettings evs init) !! e = Some ent ∧
            EntryState.paramHash ent = h ∧
            EntryState.isBeingUsed ent = false ∧
            is_Some (EntryState.cache ent)) ∧
  (∀ h1 h2 e, entriesByHash (run cacheSettings evs init) !! h1 = Some e →
              entriesByHash (run cacheSettings evs init) !! h2 = Some e →
              h1 = h2).
Proof.
  pose proof (run_at_rest evs init init_at_rest) as Hs. split.
  - intros h e He. by destruct (Hs h e He) as [_ ?].
  - intros h1 h2 e H1 H2.
    destruct (Hs h1 e H1) as (_ & ent1 & Hobj1 & <- & _).
    destruct (Hs h2 e H2) as (_ & ent2 & Hobj2 & <- & _).
    congruence.
Qed.

End CacheProperties.

(** * Further properties of the version without the resolution flag *)

Section SimpleCacheProperties.
Import SimpleCache.
Context {Param Err : Type}.
Variable cacheSettings : CacheSettings Param.

Abbreviation scall' := (SimpleCache.call (Err:=Err) cacheSettings).

(** X19: in the version without [isResolved], a call on a tracked
    fingerprint with a strictly equal state returns the promise the entry
    holds, settled or not, without invoking [fn]; entries and table are
    left as they are. *)
Theorem simple_promise_reused (param : Param) (r : FnResult Err)
    (s : State Param) (e : Ref) (ent : EntryState.t) :
  entriesByHash s !! paramHasher cacheSettings param = Some e →
  objs s !! e = Some ent →
  EntryState.isBeingUsed ent = false →
  compareCallState (paramState cacheSettings param) (EntryState.paramState ent)
    = true →
  (scall' param r s).1 = Returned (EntryState.cache ent) ∧
  invoked (scall' param r s).2 = invoked s ∧
  objs (scall' param r s).2 = objs s ∧
  entriesByHash (scall' param r s).2 = entriesByHash s.
Proof.
  intros Hhash Hobj Hused Hsame.
  by rewrite (simple_call_reuse cacheSettings param r s e ent).
Qed.

(** X20: in the version without [isResolved], a call on a tracked
    fingerprint whose state is not strictly equal to the stored one invokes
    [fn]; the promise it returns is stored and returned and the new state
    is stored after it.  When [fn] raises instead, the call throws its
    error, the fingerprint leaves the table and [remove] is applied to the
    list, so that the entry is no longer a key of the lookup and, when the
    list is well linked, leaves the order with the others keeping theirs;
    the entry object keeps its old state and promise. *)
Theorem simple_state_change (param : Param) (s : State Param) (e : Ref)
    (ent : EntryState.t) :
  entriesByHash s !! paramHasher cacheSettings param = Some e →
  objs s !! e = Some ent →
  EntryState.isBeingUsed ent = false →
  compareCallState (paramState cacheSettings param) (EntryState.paramState ent)
    = false →
  ((scall' param FnPromise s).1 = Returned (Some (nextPromise s)) ∧
   invoked (scall' param FnPromise s).2 = param :: invoked s ∧
   objs (scall' param FnPromise s).2 !! e
     = Some (EntryState.mk (EntryState.paramHash ent)
               (paramState cacheSettings param) (Some (nextPromise s)) false) ∧
   entriesByHash (scall' param FnPromise s).2 = entriesByHash s) ∧
  (∀ error,
     (scall' param (FnThrow error) s).1 = Threw (FnError error) ∧
     invoked (scall' param (FnThrow error) s).2 = param :: invoked s ∧
     entriesByHash (scall' param (FnThrow error) s).2
       = delete (paramHasher cacheSettings param) (entriesByHash s) ∧
     ¬ LinkedList.linked e (entriesByAccess (scall' param (FnThrow error) s).2) ∧
     (∀ pre n post,
        LinkedList.well_linked (entriesByAccess s) (pre ++ (n, e) :: post) →
        LinkedList.well_linked
          (entriesByAccess (scall' param (FnThrow error) s).2) (pre ++ post) ∧
        LinkedList.length (entriesByAccess (scall' param (FnThrow error) s).2)
          = LinkedList.length (entriesByAccess s) - 1) ∧
     objs (scall' param (FnThrow error) s).2 !! e
       = Some (EntryState.mk (EntryState.paramHash ent)
                 (EntryState.paramState ent) (EntryState.cache ent) true)).
Proof.
  intros Hhash Hobj Hused Hdiff. unfold SimpleCache.call, call_enter.
  rewrite Hhash, Hobj. cbn. rewrite Hused, Hdiff. cbn. split.
  - unfold cache_of. cbn. rewrite !lookup_alter_eq, Hobj. done.
  - intros error. rewrite lookup_alter_eq, Hobj.
    refine (conj _ (conj _ (conj _ (conj _ (conj _ _))))); try done.
    + apply remove_not_linked.
    + intros pre n post Hwl.
      pose proof (remove_well_linked _ pre post n e Hwl) as Hwl'.
      split; [exact Hwl'|]. unfold LinkedList.length.
      destruct Hwl as (_ & _ & _ & -> & _).
      destruct Hwl' as (_ & _ & _ & -> & _).
      rewrite !length_app. cbn [List.length]. lia.
Qed.

(** X21: in the version without [isResolved] too, a call whose fingerprint
    is held by an entry with [isBeingUsed] set throws the recursion error
    at once, without invoking [fn] and without changing anything. *)
Theorem simple_reentrant_guard (param : Param) (r : FnResult Err)
    (s : State Param) (e : Ref) (ent : EntryState.t) :
  entriesByHash s !! paramHasher cacheSettings param = Some e →
  objs s !! e = Some ent →
  EntryState.isBeingUsed ent = true →
  scall' param r s = (Threw (RecursionError recursion_message), s).
Proof.
  intros Hhash Hobj Hused. unfold SimpleCache.call, call_enter.
  rewrite Hhash, Hobj. cbn. rewrite Hused. reflexivity.
Qed.

(** X22: in the version without [isResolved], a call on a fingerprint the
    table does not hold invokes [fn].  When [fn] returns a promise the call
    returns it; on a well-linked list the new entry comes first in the
    order, and if the list is then longer than [maxEntries] the entry that
    was last in the order leaves the list, the others keeping their order,
    and the fingerprint of that entry leaves the table.  When [fn] raises,
    the call throws its error, the table is what it was and a well-linked
    list is well linked in the order it had. *)
Theorem simple_creation (param : Param) (s : State Param) :
  entriesByHash s !! paramHasher cacheSettings param = None →
  ((scall' param FnPromise s).1 = Returned (Some (nextPromise s)) ∧
   invoked (scall' param FnPromise s).2 = param :: invoked s ∧
   ∀ nl,
     LinkedList.well_linked (entriesByAccess s) nl →
     ¬ LinkedList.linked (nextObj s) (entriesByAccess s) →
     (LinkedList.length (LinkedList.insertAtHead (nextObj s) (entriesByAccess s))
        ≤ maxEntries cacheSettings →
      LinkedList.well_linked (entriesByAccess (scall' param FnPromise s).2)
        ((LinkedList.fresh (entriesByAccess s), nextObj s) :: nl) ∧
      entriesByHash (scall' param FnPromise s).2
        = <[paramHasher cacheSettings param := nextObj s]> (entriesByHash s)) ∧
     (LinkedList.length (LinkedList.insertAtHead (nextObj s) (entriesByAccess s))
        > maxEntries cacheSettings →
      ∃ front n tl,
        (LinkedList.fresh (entriesByAccess s), nextObj s) :: nl
          = front ++ [(n, tl)] ∧
        LinkedList.well_linked (entriesByAccess (scall' param FnPromise s).2)
          front ∧
        LinkedList.length (entriesByAccess (scall' param FnPromise s).2)
          = LinkedList.length (entriesByAccess s) ∧
        ∀ ent, objs (scall' param FnPromise s).2 !! tl = Some ent →
          entriesByHash (scall' param FnPromise s).2
          = delete (EntryState.paramHash ent)
              (<[paramHasher cacheSettings param := nextObj s]>
                 (entriesByHash s)))) ∧
  (∀ error,
     (scall' param (FnThrow error) s).1 = Threw (FnError error) ∧
     invoked (scall' param (FnThrow error) s).2 = param :: invoked s ∧
     entriesByHash (scall' param (FnThrow error) s).2 = entriesByHash s ∧
     ∀ nl,
       LinkedList.well_linked (entriesByAccess s) nl →
       ¬ LinkedList.linked (nextObj s) (entriesByAccess s) →
       LinkedList.well_linked
         (entriesByAccess (scall' param (FnThrow error) s).2) nl).
Proof.
  intros Hnone. unfold SimpleCache.call, call_enter. rewrite Hnone. cbn.
  set (l := LinkedList.insertAtHead (nextObj s) (entriesByAccess s)).
  split.
  - refine (conj _ (conj _ _)).
    + destruct (bool_decide _); [|unfold cache_of; cbn;
        by rewrite !lookup_alter_eq, lookup_insert_eq].
      destruct (LinkedList.tail l) as [tl|];
        [|unfold cache_of; cbn; by rewrite !lookup_alter_eq, lookup_insert_eq].
      match goal with
      | |- context [match ?x with Some _ => _ | None => _ end] =>
        destruct x
      end; unfold cache_of; cbn;
        by rewrite !lookup_alter_eq, lookup_insert_eq.
    + repeat (case_match; cbn; try reflexivity).
    + intros nl Hwl Hnew. apply eq_None_not_Some in Hnew.
      pose proof (insertAtHead_unlinked (nextObj s) _ nl Hwl Hnew) as Hwl'.
      fold l in Hwl'. split.
      * intros Hle. rewrite bool_decide_eq_false_2 by lia. by cbn.
      * intros Hgt.
        destruct (exists_last
                    (l:=(LinkedList.fresh (entriesByAccess s), nextObj s) :: nl))
          as (front & [n tl] & Hsplit); [discriminate|].
        pose proof Hwl' as Hwl1. rewrite Hsplit in Hwl'.
        exists front, n, tl. split; [exact Hsplit|].
        assert (Htl : LinkedList.tail l = Some tl).
        { rewrite (well_linked_tail l _ Hwl'), last_snoc. reflexivity. }
        rewrite bool_decide_eq_true_2 by exact Hgt. rewrite Htl.
        pose proof (remove_well_linked l front [] n tl Hwl') as Hrm.
        rewrite app_nil_r in Hrm.
        assert (Hlen : LinkedList.length (LinkedList.remove tl l)
                       = LinkedList.length (entriesByAccess s)).
        { unfold LinkedList.length.
          destruct Hrm as (_ & _ & _ & -> & _).
          destruct Hwl as (_ & _ & _ & -> & _).
          apply (f_equal (@List.length _)) in Hsplit.
          rewrite length_app in Hsplit. cbn in Hsplit. lia. }
        match goal with
        | |- context [match ?x with Some _ => _ | None => _ end] =>
          destruct x as [r|] eqn:Hr
        end; cbn.
        -- refine (conj Hrm (conj Hlen _)). intros ent. rewrite Hr.
           by intros [= ->].
        -- refine (conj Hrm (conj Hlen _)). intros ent. rewrite Hr.
           discriminate.
  - intros error. refine (conj _ (conj _ (conj _ _))); try done.
    + by apply delete_insert_id.
    + intros nl Hwl Hnew. apply eq_None_not_Some in Hnew.
      by apply remove_insertAtHead.
Qed.

End SimpleCacheProperties.

(** * The further properties at concrete inputs *)

Lemma creation_sync_failure_witness :
  (Cache.call settings2 "A" (FnThrow "boom") Cache.init).1
    = Threw (FnError "boom") ∧
  Cache.entriesByHash (Cache.call settings2 "A" (FnThrow "boom") Cache.init).2
    = ∅.
Proof.
  destruct (creation_sync_failure settings2 "A" "boom" Cache.init)
    as (Hres & _ & Htable & _).
  - vm_compute; reflexivity.
  - split; [exact Hres|exact Htable].
Defined.

Lemma after_two_calls_list :
  Cache.entriesByAccess after_two_calls = two_items.
Proof. vm_compute. reflexivity. Qed.

Lemma reinvocation_sync_failure_witness :
  (Cache.call settings2 "A" (FnThrow "boom") after_two_calls).1
    = Threw (FnError "boom") ∧
  Cache.entriesByHash (Cache.call settings2 "A" (FnThrow "boom") after_two_calls).2
    = delete "A" (Cache.entriesByHash after_two_calls) ∧
  LinkedList.well_linked
    (Cache.entriesByAccess
       (Cache.call settings2 "A" (FnThrow "boom") after_two_calls).2)
    [(1%nat, 1%nat)].
Proof.
  destruct (reinvocation_sync_failure settings2 "A" "boom" after_two_calls
              0%nat first_entry) as (Hres & _ & Htable & _ & Hwl & _).
  - vm_compute; reflexivity.
  - vm_compute; reflexivity.
  - reflexivity.
  - vm_compute; reflexivity.
  - split; [exact Hres|]. split; [exact Htable|].
    destruct (Hwl [(1%nat, 1%nat)] 0%nat []) as [Hwl' _]; [|exact Hwl'].
    rewrite after_two_calls_list. exact two_items_well_linked.
Defined.

Lemma resolved_result_is_reused_witness :
  ∃ s1, Cache.settle (Err:=string) settings2 0%nat (Resolves 7%nat) after_first_call
          = Some (Fulfilled (Some 7%nat), s1) ∧
        (Cache.call (Err:=string) settings2 "A" FnPromise s1).1
          = Returned (Some 0%nat).
Proof.
  destruct (resolved_result_is_reused (Err:=string) settings2 0%nat 0%nat "A" "A"
              7%nat first_entry after_first_call) as (s1 & Hsettle & _ & _ & Hcall).
  - vm_compute; reflexivity.
  - vm_compute; reflexivity.
  - vm_compute; reflexivity.
  - reflexivity.
  - reflexivity.
  - vm_compute; reflexivity.
  - intros f Hf. discriminate.
  - exists s1. split; [exact Hsettle|]. apply (Hcall FnPromise).
Defined.

Lemma nan_state_never_reused_witness :
  let s := (Cache.call (Err:=string) restless "A" FnPromise Cache.init).2 in
  (Cache.call (Err:=string) restless "A" FnPromise s).1 = Returned (Some 1%nat).
Proof.
  intros s.
  destruct (nan_state_never_reused (Err:=string) restless "A" s 0%nat
              (Cache.EntryState.mk "A" StateNaN (Some 0%nat) false false))
    as [_ Hret].
  - vm_compute; reflexivity.
  - vm_compute; reflexivity.
  - reflexivity.
  - reflexivity.
  - exact Hret.
Defined.

Lemma superseded_rejection_spares_entry_witness :
  ∃ s2, Cache.settle (Err:=string) settings2 0%nat (Rejects "boom")
          (Cache.call (Err:=string) settings2 "A" FnPromise after_first_call).2
          = Some (Rejected "boom", s2) ∧
        Cache.entriesByHash s2 !! "A" = Some 0%nat.
Proof.
  destruct (superseded_rejection_spares_entry (Err:=string) settings2 0%nat 0%nat
              "A" "A" "boom" first_entry after_first_call)
    as (s2 & Hsettle & Htable & _).
  - vm_compute; reflexivity.
  - vm_compute; reflexivity.
  - vm_compute; reflexivity.
  - reflexivity.
  - reflexivity.
  - vm_compute; reflexivity.
  - vm_compute; lia.
  - exists s2. split; [exact Hsettle|exact Htable].
Defined.

Lemma evicted_rejection_unfiles_successor_witness :
  Cache.entriesByHash after_recreation !! "A" = Some 2%nat ∧
  LinkedList.linked 2%nat (Cache.entriesByAccess after_recreation) ∧
  ∃ s1, Cache.settle (Err:=string) settings1 0%nat (Rejects "boom") after_recreation
          = Some (Rejected "boom", s1) ∧
        Cache.entriesByHash s1 !! "A" = None ∧
        Cache.entriesByAccess s1 = Cache.entriesByAccess after_recreation.
Proof.
  split; [vm_compute; reflexivity|]. split; [vm_compute; by eexists|].
  destruct (evicted_rejection_unfiles_successor (Err:=string) settings1 0%nat 0%nat
              2%nat "A" "boom" first_entry after_recreation)
    as (s1 & Hsettle & Htable & Hlist & _).
  - vm_compute; reflexivity.
  - vm_compute; reflexivity.
  - reflexivity.
  - vm_compute. intros [n Hn]. discriminate.
  - vm_compute; reflexivity.
  - discriminate.
  - exists s1. split; [exact Hsettle|]. split; [exact Htable|exact Hlist].
Defined.


Lemma simple_promise_reused_witness :
  (SimpleCache.call (Err:=string) simple_versioned ("A", 1) FnPromise
     simple_after_versioned_call).1 = Returned (Some 0%nat).
Proof.
  destruct (simple_promise_reused (Err:=string) simple_versioned ("A", 1) FnPromise
              simple_after_versioned_call 0%nat
              (SimpleCache.EntryState.mk "A" (StateNumber 1) (Some 0%nat) false))
    as [Hres _].
  - vm_compute; reflexivity.
  - vm_compute; reflexivity.
  - reflexivity.
  - vm_compute; reflexivity.
  - exact Hres.
Defined.

Lemma simple_after_two_versioned_list :
  SimpleCache.entriesByAccess simple_after_two_versioned = two_items.
Proof. vm_compute. reflexivity. Qed.

Lemma simple_state_change_witness :
  (SimpleCache.call (Err:=string) simple_versioned ("A", 2) FnPromise
     simple_after_two_versioned).1 = Returned (Some 2%nat) ∧
  (SimpleCache.call simple_versioned ("A", 2) (FnThrow "boom")
     simple_after_two_versioned).1 = Threw (FnError "boom") ∧
  LinkedList.well_linked
    (SimpleCache.entriesByAccess
       (SimpleCache.call simple_versioned ("A", 2) (FnThrow "boom")
          simple_after_two_versioned).2)
    [(1%nat, 1%nat)].
Proof.
  destruct (simple_state_change (Err:=string) simple_versioned ("A", 2)
              simple_after_two_versioned 0%nat
              (SimpleCache.EntryState.mk "A" (StateNumber 1) (Some 0%nat) false))
    as [(Hres & _) Hthrow].
  - vm_compute; reflexivity.
  - vm_compute; reflexivity.
  - reflexivity.
  - vm_compute; reflexivity.
  - split; [exact Hres|].
    destruct (Hthrow "boom") as (Hthrew & _ & _ & _ & Hwl & _).
    split; [exact Hthrew|].
    destruct (Hwl [(1%nat, 1%nat)] 0%nat []) as [Hwl' _]; [|exact Hwl'].
    rewrite simple_after_two_versioned_list. exact two_items_well_linked.
Defined.

Lemma simple_reentrant_guard_witness :
  SimpleCache.call simple2 "A" (FnPromise (Err:=string)) simple_inside_first_call
  = (Threw (RecursionError recursion_message), simple_inside_first_call).
Proof.
  apply (simple_reentrant_guard simple2 "A" FnPromise simple_inside_first_call
           0%nat (SimpleCache.EntryState.mk "A" StateNull None true));
    vm_compute; reflexivity.
Defined.

Lemma simple_after_two_calls_list :
  SimpleCache.entriesByAccess simple_after_two_calls = two_items.
Proof. vm_compute. reflexivity. Qed.

Lemma simple_creation_witness :
  (SimpleCache.call (Err:=string) simple2 "C" FnPromise simple_after_two_calls).1
    = Returned (Some 2%nat) ∧
  LinkedList.well_linked
    (SimpleCache.entriesByAccess
       (SimpleCache.call (Err:=string) simple2 "C" FnPromise
          simple_after_two_calls).2)
    [(2%nat, 2%nat); (1%nat, 1%nat)] ∧
  SimpleCache.entriesByHash
    (SimpleCache.call (Err:=string) simple2 "C" FnPromise simple_after_two_calls).2
    !! "A" = None.
Proof.
  destruct (simple_creation (Err:=string) simple2 "C" simple_after_two_calls)
    as [(Hres & _ & Hwl) _].
  - vm_compute; reflexivity.
  - split; [exact Hres|].
    destruct (Hwl two_items_order) as [_ Hevict].
    + rewrite simple_after_two_calls_list. exact two_items_well_linked.
    + vm_compute. intros [n Hn]. discriminate.
    + destruct Hevict as (front & n & tl & Hsplit & Hfront & _ & _).
      * vm_compute. reflexivity.
      * split; [|vm_compute; reflexivity].
        assert (Hfr : front = [(2%nat, 2%nat); (1%nat, 1%nat)]).
        { rewrite simple_after_two_calls_list in Hsplit.
          change ([(2%nat, 2%nat); (1%nat, 1%nat)] ++ [(0%nat, 0%nat)]
                  = front ++ [(n, tl)]) in Hsplit.
          by apply app_inj_tail in Hsplit as [<- _]. }
        by rewrite <- Hfr.
Defined.

Lemma creation_keeps_consistency_witness :
  ∃ nl', Cache.consistent settings2
           (Cache.call (Err:=string) settings2 "A" FnPromise Cache.init).2 nl'.
Proof.
  destruct (creation_keeps_consistency (Err:=string) settings2 "A" Cache.init [])
    as (nl' & Hcons & _).
  - apply init_consistent. vm_compute. discriminate.
  - vm_compute; reflexivity.
  - by exists nl'.
Defined.
